(** * Music generation demo: parameter extractor, fallback manager, WAV encoder

    A shallow embedding of three pieces of the JavaScript sources:
    - [ToneMusicGenerator._parseDescription] (tone-music-generator.js),
    - [MusicGeneratorManager] (music-generator-manager.js),
    - [audioBufferToWav] (app.js),
    followed by the properties established about them. *)

From Stdlib Require Import ZArith QArith Qround Lqa String Ascii List Sorted Lia.
From stdpp Require Import base tactics option list strings.

Local Open Scope Z_scope.

(* ===================================================================== *)
(** * Part I: the programs                                                *)
(* ===================================================================== *)

(** ** JavaScript strings

    Descriptions are modelled as sequences of 8-bit code units.  The keyword
    tables of the parser are plain ASCII, and [toLowerCase]/[toUpperCase]
    act on the ASCII letters and leave every other code unit alone. *)
Module JsString.

Definition lower_char (c : ascii) : ascii :=
  let n := nat_of_ascii c in
  if ((65 <=? n) && (n <=? 90))%nat then ascii_of_nat (n + 32) else c.

Definition upper_char (c : ascii) : ascii :=
  let n := nat_of_ascii c in
  if ((97 <=? n) && (n <=? 122))%nat then ascii_of_nat (n - 32) else c.

Fixpoint map_chars (f : ascii -> ascii) (s : string) : string :=
  match s with
  | EmptyString => EmptyString
  | String c t => String (f c) (map_chars f t)
  end.

(** [String.prototype.toLowerCase] *)
Definition toLowerCase (s : string) : string := map_chars lower_char s.

(** [String.prototype.toUpperCase] *)
Definition toUpperCase (s : string) : string := map_chars upper_char s.

(** [s.includes(search)]: [search] occurs in [s] at some position. *)
Fixpoint includes (s search : string) : bool :=
  String.prefix search s
  || match s with
     | EmptyString => false
     | String _ t => includes t search
     end.

(** [keywords.some(k => s.includes(k))], the shape of every
    [a.includes(..) || b.includes(..)] condition of the parser. *)
Definition includes_any (s : string) (keywords : list string) : bool :=
  existsb (includes s) keywords.

End JsString.

(** ** tone-music-generator.js: [_parseDescription] *)
Module Tone.
Import JsString.

(** The object literal [params]. Tempo is an integer BPM, the duration a
    number of seconds; the other fields hold the strings the code stores. *)
Record MusicParameters := mkParams {
  tempo : Z;
  key : string;
  scale : string;
  instruments : list string;
  mood : string;
  duration : Q;
  complexity : string
}.

Definition set_tempo (v : Z) (p : MusicParameters) : MusicParameters :=
  mkParams v (key p) (scale p) (instruments p) (mood p) (duration p) (complexity p).
Definition set_key (v : string) (p : MusicParameters) : MusicParameters :=
  mkParams (tempo p) v (scale p) (instruments p) (mood p) (duration p) (complexity p).
Definition set_scale (v : string) (p : MusicParameters) : MusicParameters :=
  mkParams (tempo p) (key p) v (instruments p) (mood p) (duration p) (complexity p).
Definition set_instruments (v : list string) (p : MusicParameters) : MusicParameters :=
  mkParams (tempo p) (key p) (scale p) v (mood p) (duration p) (complexity p).
Definition set_mood (v : string) (p : MusicParameters) : MusicParameters :=
  mkParams (tempo p) (key p) (scale p) (instruments p) v (duration p) (complexity p).
Definition set_duration (v : Q) (p : MusicParameters) : MusicParameters :=
  mkParams (tempo p) (key p) (scale p) (instruments p) (mood p) v (complexity p).
Definition set_complexity (v : string) (p : MusicParameters) : MusicParameters :=
  mkParams (tempo p) (key p) (scale p) (instruments p) (mood p) (duration p) v.

(** [params.instruments.push(name)] *)
Definition push_instrument (name : string) (p : MusicParameters) : MusicParameters :=
  set_instruments (instruments p ++ [name]) p.

(** The initial object literal. *)
Definition initial_params : MusicParameters :=
  mkParams 120 "C" "major" [] "neutral" 5%Q "medium".

(** Tempo detection: an [if / else if] chain. *)
Definition tempo_detection (desc : string) (p : MusicParameters) : MusicParameters :=
  if includes desc "slow" || includes desc "lento" || includes desc "adagio" then
    set_tempo 60 p
  else if includes desc "fast" || includes desc "allegro" || includes desc "presto" then
    set_tempo 160 p
  else if includes desc "moderate" || includes desc "andante" then
    set_tempo 100 p
  else if includes desc "upbeat" || includes desc "energetic" then
    set_tempo 140 p
  else p.

Definition keys : list string := ["c"; "d"; "e"; "f"; "g"; "a"; "b"].

(** Key detection: the [for (const key of keys)] loop with its [break]. *)
Fixpoint key_loop (desc : string) (ks : list string) (p : MusicParameters)
  : MusicParameters :=
  match ks with
  | [] => p
  | k :: rest =>
      if includes desc ("key of " +:+ k)
         || includes desc (k +:+ " major")
         || includes desc (k +:+ " minor")
      then
        let p1 := set_key (toUpperCase k) p in
        if includes desc "minor" then set_scale "minor" p1 else p1
      else key_loop desc rest p
  end.

Definition key_detection (desc : string) (p : MusicParameters) : MusicParameters :=
  key_loop desc keys p.

(** Scale detection: [if (minor) ... else if (major) ...]. *)
Definition scale_detection (desc : string) (p : MusicParameters) : MusicParameters :=
  if includes desc "minor" then set_scale "minor" p
  else if includes desc "major" then set_scale "major" p
  else p.

(** One [if (cond) params.instruments.push(name)] line. *)
Definition push_if (cond : bool) (name : string) (p : MusicParameters)
  : MusicParameters :=
  if cond then push_instrument name p else p.

(** Instrument detection, followed by the default pair. *)
Definition instrument_detection (desc : string) (p : MusicParameters)
  : MusicParameters :=
  let p := push_if (includes desc "piano") "piano" p in
  let p := push_if (includes desc "guitar") "guitar" p in
  let p := push_if (includes desc "drums" || includes desc "drum") "drums" p in
  let p := push_if (includes desc "bass") "bass" p in
  let p := push_if (includes desc "violin") "violin" p in
  let p := push_if (includes desc "flute") "flute" p in
  let p := push_if (includes desc "trumpet") "trumpet" p in
  let p := push_if (includes desc "saxophone" || includes desc "sax") "saxophone" p in
  if (List.length (instruments p) =? 0)%nat
  then set_instruments ["piano"; "bass"] p
  else p.

(** Mood detection: an [if / else if] chain with side effects on the scale
    and the tempo. *)
Definition mood_detection (desc : string) (p : MusicParameters) : MusicParameters :=
  if includes desc "happy" || includes desc "joyful" || includes desc "cheerful" then
    set_scale "major" (set_mood "happy" p)
  else if includes desc "sad" || includes desc "melancholic" || includes desc "somber" then
    set_scale "minor" (set_mood "sad" p)
  else if includes desc "energetic" || includes desc "intense" || includes desc "powerful" then
    let p1 := set_mood "energetic" p in
    set_tempo (Z.max (tempo p1) 140) p1
  else if includes desc "calm" || includes desc "peaceful" || includes desc "relaxing" then
    let p1 := set_mood "calm" p in
    set_tempo (Z.min (tempo p1) 90) p1
  else p.

Definition duration_detection (desc : string) (p : MusicParameters) : MusicParameters :=
  if includes desc "short" then set_duration 3%Q p
  else if includes desc "long" then set_duration 10%Q p
  else p.

Definition complexity_detection (desc : string) (p : MusicParameters)
  : MusicParameters :=
  if includes desc "simple" || includes desc "minimal" then set_complexity "simple" p
  else if includes desc "complex" || includes desc "intricate" then
    set_complexity "complex" p
  else p.

(** [_parseDescription(description)] *)
Definition _parseDescription (description : string) : MusicParameters :=
  let desc := toLowerCase description in
  let params := initial_params in
  let params := tempo_detection desc params in
  let params := key_detection desc params in
  let params := scale_detection desc params in
  let params := instrument_detection desc params in
  let params := mood_detection desc params in
  let params := duration_detection desc params in
  let params := complexity_detection desc params in
  params.

(** *** The keyword tables, as data

    These restate the literals of the conditions above, grouped by class;
    the properties below are phrased over them. *)

Definition slow_keywords : list string := ["slow"; "lento"; "adagio"].
Definition fast_keywords : list string := ["fast"; "allegro"; "presto"].
Definition moderate_keywords : list string := ["moderate"; "andante"].
Definition upbeat_keywords : list string := ["upbeat"; "energetic"].

(** Tempo classes in the order the code tests them. *)
Definition tempo_classes : list (list string * Z) :=
  [(slow_keywords, 60); (fast_keywords, 160);
   (moderate_keywords, 100); (upbeat_keywords, 140)].

Definition happy_keywords : list string := ["happy"; "joyful"; "cheerful"].
Definition sad_keywords : list string := ["sad"; "melancholic"; "somber"].
Definition energetic_keywords : list string := ["energetic"; "intense"; "powerful"].
Definition calm_keywords : list string := ["calm"; "peaceful"; "relaxing"].

Definition mood_keywords : list string :=
  happy_keywords ++ sad_keywords ++ energetic_keywords ++ calm_keywords.

(** The mood keywords whose branch touches the tempo. *)
Definition clamping_mood_keywords : list string :=
  energetic_keywords ++ calm_keywords.

Definition key_phrases : list string :=
  flat_map (fun k => ["key of " +:+ k; k +:+ " major"; k +:+ " minor"]) keys.

Definition scale_keywords : list string := ["minor"; "major"].

Definition instrument_keywords : list string :=
  ["piano"; "guitar"; "drums"; "drum"; "bass"; "violin"; "flute"; "trumpet";
   "saxophone"; "sax"].

Definition duration_keywords : list string := ["short"; "long"].
Definition complexity_keywords : list string :=
  ["simple"; "minimal"; "complex"; "intricate"].

(** Every literal (or instantiated template) some [includes] call tests. *)
Definition recognized_keywords : list string :=
  slow_keywords ++ fast_keywords ++ moderate_keywords ++ upbeat_keywords
  ++ key_phrases ++ scale_keywords ++ instrument_keywords ++ mood_keywords
  ++ duration_keywords ++ complexity_keywords.

(** The classes of [classes] that a text matches, in table order. *)
Definition matching_classes (desc : string) (classes : list (list string * Z))
  : list (list string * Z) :=
  List.filter (fun c => includes_any desc (fst c)) classes.

Definition default_params : MusicParameters :=
  mkParams 120 "C" "major" ["piano"; "bass"] "neutral" 5%Q "medium".

(** *** [_generateNotes] *)

Definition majorIntervals : list Z := [0; 2; 4; 5; 7; 9; 11].
Definition minorIntervals : list Z := [0; 2; 3; 5; 7; 8; 10].

(** The object literal [keyNotes]. *)
Definition keyNotes : list (string * Z) :=
  [("C", 0); ("D", 2); ("E", 4); ("F", 5); ("G", 7); ("A", 9); ("B", 11)].

(** [keyNotes[key] || 0]: a key that is no property of the literal reads
    [undefined], and both [undefined] and the number 0 are falsy.  (Names
    inherited from [Object.prototype] are outside this model; the parser
    produces none.) *)
Definition key_offset (key : string) : Z :=
  match List.find (fun entry => String.eqb (fst entry) key) keyNotes with
  | Some (_, semitones) => if semitones =? 0 then 0 else semitones
  | None => 0
  end.

Section Notes.
(** [Tone.Frequency(midiNote, 'midi').toNote()], a function of the library. *)
Variable toNote : Z -> string.

(** [_generateNotes(params)] *)
Definition _generateNotes (params : MusicParameters) : list string :=
  let intervals :=
    if String.eqb (scale params) "major" then majorIntervals else minorIntervals in
  let baseNote := 60 + key_offset (key params) in
  map (fun interval =>
         let midiNote := baseNote + interval in
         toNote midiNote)
      intervals.
End Notes.

(** *** [_createInstrument] *)

Record envelope := mkEnvelope {
  attack : Q;
  decay : Q;
  sustain : Q;
  release : Q
}.

(** What the constructor calls of [_createInstrument] build: the class and
    the option literals handed to it. *)
Inductive instrument :=
| PolySynth (oscillator : string) (env : envelope)
    (* [new Tone.PolySynth(Tone.Synth).set({oscillator: {type}, envelope})] *)
| MonoSynth (oscillator : string) (env filterEnvelope : envelope)
    (baseFrequency octaves : Z)
| Noise (type : string) (volume : Z)
| DefaultPolySynth.
    (* [new Tone.PolySynth(Tone.Synth)] *)

(** [_createInstrument(name)] *)
Definition _createInstrument (name : string) : instrument :=
  let name := toLowerCase name in
  if String.eqb name "piano" then
    PolySynth "triangle" (mkEnvelope (2 # 100) (1 # 10) (3 # 10) (5 # 10))
  else if String.eqb name "guitar" then
    PolySynth "sawtooth" (mkEnvelope (1 # 10) (2 # 10) (5 # 10) (8 # 10))
  else if String.eqb name "bass" then
    MonoSynth "square" (mkEnvelope (1 # 100) (1 # 10) (4 # 10) (3 # 10))
              (mkEnvelope (1 # 100) (1 # 10) (2 # 10) (1 # 10)) 200 2
  else if String.eqb name "drums" then
    Noise "pink" (-10)
  else if String.eqb name "violin" then
    PolySynth "sine" (mkEnvelope (3 # 10) (2 # 10) (5 # 10) (5 # 10))
  else if String.eqb name "flute" then
    PolySynth "sine" (mkEnvelope (1 # 10) (1 # 10) (7 # 10) (3 # 10))
  else if String.eqb name "trumpet" then
    PolySynth "square" (mkEnvelope (5 # 100) (1 # 10) (4 # 10) (2 # 10))
  else if String.eqb name "saxophone" then
    PolySynth "sawtooth" (mkEnvelope (1 # 10) (2 # 10) (5 # 10) (4 # 10))
  else DefaultPolySynth.

(** The instrument table of the parser: each pushed name with the keywords
    of its [if]. *)
Definition instrument_table : list (string * list string) :=
  [("piano", ["piano"]); ("guitar", ["guitar"]); ("drums", ["drums"; "drum"]);
   ("bass", ["bass"]); ("violin", ["violin"]); ("flute", ["flute"]);
   ("trumpet", ["trumpet"]); ("saxophone", ["saxophone"; "sax"])].

(** The instrument names whose keywords occur, in table order. *)
Definition mentioned_instruments (desc : string) : list string :=
  map fst (List.filter (fun entry => includes_any desc (snd entry)) instrument_table).


(** *** The scheduling loop of [_generateMusic]

    The loop over the beats with its inner [instruments.forEach].  The times,
    the note length, the velocities and the progress values are floating
    point results ([now + beat * beatDuration], [beatDuration * 0.8],
    [_getVelocity(..)], [50 + Math.floor(beat / totalBeats * 40)]); the loop
    only passes them on, so they are parameters here, as is [totalBeats].
    The result is the sequence of calls the loop makes, and whether it was
    left by an exception. *)

(** The synths built from the parameters: [_createInstrument] always returns
    an object, so the [if (synth)] test passes for every name. *)
Definition create_instruments (params : MusicParameters) : list instrument :=
  map _createInstrument (instruments params).

(** Whether the object has a [triggerAttackRelease] method.  The Tone.js
    synths ([PolySynth], [MonoSynth]) have it; [Tone.Noise], a plain source
    node, does not, so the call on it throws a [TypeError]. *)
Definition has_triggerAttackRelease (synth : instrument) : bool :=
  match synth with
  | Noise _ _ => false
  | _ => true
  end.

Section Schedule.
Context {Time Velocity : Type}.
Variable time_of_beat : nat -> Time.
Variable note_length : Time.
Variable _getVelocity : nat -> nat -> Velocity.
Variable progress_of_beat : nat -> Z.
(** Whether a progress callback was given ([if (onProgress && ...)]). *)
Variable onProgress : bool.
Variable notes : list string.
Variable instruments : list instrument.
Variable totalBeats : nat.

Inductive call :=
| TriggerAttackRelease (instIndex : nat) (note : option string)
    (length : Time) (time : Time) (velocity : Velocity)
    (* [synth.triggerAttackRelease(note, ..)] on [instruments[instIndex]];
       the note is [None] when the array read is [undefined] *)
| ReportProgress (progress : Z).

(** [instruments.forEach((synth, instIndex) => ...)] from index [instIndex]
    on: the calls made, and [true] when a [TypeError] ended the iteration. *)
Fixpoint trigger_from (beat noteIndex instIndex : nat) (synths : list instrument)
  : list call * bool :=
  match synths with
  | [] => ([], false)
  | synth :: rest =>
      let note :=
        notes !! ((noteIndex + instIndex) mod List.length notes)%nat in
      let velocity := _getVelocity beat instIndex in
      if has_triggerAttackRelease synth then
        let '(calls, thrown) := trigger_from beat noteIndex (S instIndex) rest in
        (TriggerAttackRelease instIndex note note_length (time_of_beat beat) velocity
           :: calls, thrown)
      else ([], true)
  end.

Definition trigger_all (beat noteIndex : nat) : list call * bool :=
  trigger_from beat noteIndex 0 instruments.

(** [for (let beat = 0; beat < totalBeats; beat++)] from [beats], with the
    running [noteIndex]; an exception leaves the loop at once. *)
Fixpoint beat_loop (beats : list nat) (noteIndex : nat) : list call * bool :=
  match beats with
  | [] => ([], false)
  | beat :: rest =>
      let '(calls, thrown) := trigger_all beat noteIndex in
      if thrown then (calls, true)
      else
        let '(later, thrown_later) :=
          beat_loop rest (noteIndex + List.length instruments) in
        (calls
         ++ (if onProgress
                && (beat mod Nat.max 1 (totalBeats / 10) =? 0)%nat
             then [ReportProgress (progress_of_beat beat)]
             else [])
         ++ later, thrown_later)
  end.

(** The calls of the whole loop, and whether it threw (in which case
    [_generateMusic] rejects with that error). *)
Definition schedule : list call * bool := beat_loop (seq 0 totalBeats) 0.

Definition is_trigger (c : call) : bool :=
  match c with TriggerAttackRelease _ _ _ _ _ => true | ReportProgress _ => false end.
End Schedule.

End Tone.

(** ** app.js: the [MusicGenerator] interface *)

(** A thrown [Error] object.  The interface documents [@throws {Error}] and
    every [throw] of the sources throws [new Error(message)]; an object is
    truthy, which is what [lastError || ...] in the manager tests. *)
Record Error := mkError { message : string }.

(** What an awaited call produces: a thrown error or a value. *)
Definition outcome (A : Type) : Type := (Error + A)%type.

Module MusicGenerator.

(** The methods of a concrete generator.  [getName] returns the constant name
    of the subclass.  [isAvailable] and [generate] are asynchronous methods
    that may touch the outside world (the audio context, the network) and
    may throw: they are state transformers over a world [World], awaited one
    after the other.  [Result] stands for [AudioBuffer|string] and [Progress]
    for the progress callback handed through to [generate]. *)
Record t (World Result Progress : Type) := mk {
  getName : string;
  isAvailable : World -> outcome bool * World;
  generate : string -> Progress -> World -> outcome Result * World
}.
Arguments mk {World Result Progress}.
Arguments getName {World Result Progress}.
Arguments isAvailable {World Result Progress}.
Arguments generate {World Result Progress}.

End MusicGenerator.

(** ** music-generator-manager.js: [MusicGeneratorManager] *)
Module Manager.

(** Generator objects are compared by identity ([g !== this.currentGenerator]):
    a generator is a reference, its methods live in an object store. *)
Definition ref := nat.

(** The fields of the manager; [null] is [None]. *)
Record MusicGeneratorManager := mkManager {
  generators : list ref;
  currentGenerator : option ref;
  fallbackGenerator : option ref
}.

(** [constructor()] *)
Definition constructor : MusicGeneratorManager := mkManager [] None None.

(** [registerGenerator(generator, isDefault = false)] *)
Definition registerGenerator (generator : ref) (isDefault : bool)
    (this : MusicGeneratorManager) : MusicGeneratorManager :=
  let this := mkManager (generators this ++ [generator])
                        (currentGenerator this) (fallbackGenerator this) in
  let this :=
    if isDefault || negb (bool_decide (is_Some (currentGenerator this)))
    then mkManager (generators this) (Some generator) (fallbackGenerator this)
    else this in
  if negb (bool_decide (is_Some (fallbackGenerator this)))
  then mkManager (generators this) (currentGenerator this) (Some generator)
  else this.

(** [getCurrentGenerator()] *)
Definition getCurrentGenerator (this : MusicGeneratorManager) : option ref :=
  match currentGenerator this with
  | Some g => Some g
  | None => fallbackGenerator this
  end.

(** The array [generatorsToTry] built at the start of [generate]:
    [[current, ...generators.filter(g => g !== current)].filter(g => g !== null)] *)
Definition generatorsToTry (this : MusicGeneratorManager) : list ref :=
  let spread : list (option ref) :=
    currentGenerator this
    :: map Some (filter (fun g => Some g <> currentGenerator this) (generators this)) in
  omap id spread.

(** What one iteration of the [for ... of] loop did (a ghost trace, kept
    next to the [console.warn] output of the [catch] block). *)
Inductive attempt :=
| Skipped (g : ref)                  (* [isAvailable()] was false *)
| Failed (g : ref) (error : Error)   (* the [catch] block ran *)
| Succeeded (g : ref).               (* [generate] returned *)

Definition attempt_generator (a : attempt) : ref :=
  match a with Skipped g | Failed g _ | Succeeded g => g end.

(** The errors the [catch] block stored into [lastError], oldest first. *)
Definition recorded_errors (trace : list attempt) : list Error :=
  omap (fun a => match a with Failed _ e => Some e | _ => None end) trace.

Definition succeeded (a : attempt) : bool :=
  match a with Succeeded _ => true | _ => false end.

(** No iteration of the loop ended in a success. *)
Definition failed_only (trace : list attempt) : bool :=
  forallb (fun a => negb (succeeded a)) trace.

Definition no_generator_error : Error := mkError "No available music generators".

Section Generate.
Context {World Result Progress : Type}.
(** The object store: the methods of each generator object. *)
Variable heap : ref -> MusicGenerator.t World Result Progress.
Variable description : string.
Variable onProgress : Progress.

(** [setGenerator(name)]: the returned boolean and the manager after. *)
Definition setGenerator (name : string) (this : MusicGeneratorManager)
  : bool * MusicGeneratorManager :=
  match List.find (fun g => String.eqb (MusicGenerator.getName (heap g)) name) (generators this) with
  | Some generator =>
      (true, mkManager (generators this) (Some generator) (fallbackGenerator this))
  | None => (false, this)
  end.

(** The [for (const generator of generatorsToTry)] loop with its
    [try]/[catch], and the final [throw lastError || new Error(..)]. *)
Fixpoint try_generators (todo : list ref) (lastError : option Error)
    (trace : list attempt) (w : World)
  : outcome Result * World * list attempt :=
  match todo with
  | [] =>
      (inl (match lastError with
            | Some e => e
            | None => no_generator_error
            end), w, trace)
  | generator :: rest =>
      match MusicGenerator.isAvailable (heap generator) w with
      | (inr true, w1) =>
          match MusicGenerator.generate (heap generator) description onProgress w1 with
          | (inr result, w2) => (inr result, w2, trace ++ [Succeeded generator])
          | (inl error, w2) =>
              try_generators rest (Some error) (trace ++ [Failed generator error]) w2
          end
      | (inr false, w1) =>
          try_generators rest lastError (trace ++ [Skipped generator]) w1
      | (inl error, w1) =>
          try_generators rest (Some error) (trace ++ [Failed generator error]) w1
      end
  end.

(** [generate(description, onProgress)] *)
Definition generate (this : MusicGeneratorManager) (w : World)
  : outcome Result * World * list attempt :=
  try_generators (generatorsToTry this) None [] w.
(** What one call of [generate] has to do, stated call by call and without
    reference to [try_generators]: starting in world [w], every candidate of
    the list gets one [isAvailable()] call in the world its predecessor left;
    a candidate that answers true gets one [generate] call right after; the
    first returned result ends the run.  [loop_spec todo w trace result w']
    holds when these calls produce [trace], end in world [w'], and return
    [result] ([None] when the list was exhausted without a result). *)
Inductive loop_spec
  : list ref -> World -> list attempt -> option Result -> World -> Prop :=
| spec_exhausted (w : World) :
    loop_spec [] w [] None w
| spec_unavailable (g : ref) (rest : list ref) (w w1 w' : World)
    (trace : list attempt) (result : option Result) :
    MusicGenerator.isAvailable (heap g) w = (inr false, w1) ->
    loop_spec rest w1 trace result w' ->
    loop_spec (g :: rest) w (Skipped g :: trace) result w'
| spec_check_throws (g : ref) (rest : list ref) (w w1 w' : World) (error : Error)
    (trace : list attempt) (result : option Result) :
    MusicGenerator.isAvailable (heap g) w = (inl error, w1) ->
    loop_spec rest w1 trace result w' ->
    loop_spec (g :: rest) w (Failed g error :: trace) result w'
| spec_generate_throws (g : ref) (rest : list ref) (w w1 w2 w' : World)
    (error : Error) (trace : list attempt) (result : option Result) :
    MusicGenerator.isAvailable (heap g) w = (inr true, w1) ->
    MusicGenerator.generate (heap g) description onProgress w1 = (inl error, w2) ->
    loop_spec rest w2 trace result w' ->
    loop_spec (g :: rest) w (Failed g error :: trace) result w'
| spec_success (g : ref) (rest : list ref) (w w1 w2 : World) (result : Result) :
    MusicGenerator.isAvailable (heap g) w = (inr true, w1) ->
    MusicGenerator.generate (heap g) description onProgress w1 = (inr result, w2) ->
    loop_spec (g :: rest) w [Succeeded g] (Some result) w2.

End Generate.

(** *** A concrete object store, used in the examples

    The world is the log of the method calls made so far.  Generator 0 is
    never available, generator 1 is available and throws, generator 2 is
    available and returns a URL. *)
Definition example_heap (g : ref) : MusicGenerator.t (list string) string unit :=
  match g with
  | O => MusicGenerator.mk "A"
           (fun w => (inr false, w ++ ["A.isAvailable"]))
           (fun _ _ w => (inl (mkError "A cannot generate"), w ++ ["A.generate"]))
  | S O => MusicGenerator.mk "B"
           (fun w => (inr true, w ++ ["B.isAvailable"]))
           (fun _ _ w => (inl (mkError "B failed"), w ++ ["B.generate"]))
  | _ => MusicGenerator.mk "C"
           (fun w => (inr true, w ++ ["C.isAvailable"]))
           (fun _ _ w => (inr "/audio/c.wav", w ++ ["C.generate"]))
  end.

(** The manager after registering generators 0, 1, 2 in that order, the
    first one as default. *)
Definition example_manager : MusicGeneratorManager :=
  registerGenerator 2%nat false
    (registerGenerator 1%nat false (registerGenerator 0%nat true constructor)).

(** The same generator object registered twice behind a default one. *)
Definition twice_registered : MusicGeneratorManager :=
  registerGenerator 1%nat false
    (registerGenerator 1%nat false (registerGenerator 0%nat true constructor)).

(** A second object store in which nothing succeeds: generator 0 is
    available and its [generate] throws, the availability check of generator
    1 itself throws, every other generator is unavailable. *)
Definition failing_heap (g : ref) : MusicGenerator.t (list string) string unit :=
  match g with
  | O => MusicGenerator.mk "first"
           (fun w => (inr true, w ++ ["first.isAvailable"]))
           (fun _ _ w => (inl (mkError "first failed"), w ++ ["first.generate"]))
  | S O => MusicGenerator.mk "second"
           (fun w => (inl (mkError "second broke"), w ++ ["second.isAvailable"]))
           (fun _ _ w => (inr "/audio/second.wav", w ++ ["second.generate"]))
  | _ => MusicGenerator.mk "third"
           (fun w => (inr false, w ++ ["third.isAvailable"]))
           (fun _ _ w => (inr "/audio/third.wav", w ++ ["third.generate"]))
  end.

(** [initialize()]: the objects made by [new ToneMusicGenerator()] and
    [new ApiMusicGenerator()] are the references [toneGenerator] and
    [apiGenerator]. *)
Definition initialize (toneGenerator apiGenerator : ref)
    (this : MusicGeneratorManager) : MusicGeneratorManager :=
  let this := registerGenerator toneGenerator true this in
  registerGenerator apiGenerator false this.

(** A call of one of the two methods that assign the fields. *)
Inductive method_call :=
| Register (generator : ref) (isDefault : bool)
| Select (name : string).

Section Calls.
Context {World Result Progress : Type}.
Variable heap : ref -> MusicGenerator.t World Result Progress.

Definition apply_call (this : MusicGeneratorManager) (c : method_call)
  : MusicGeneratorManager :=
  match c with
  | Register generator isDefault => registerGenerator generator isDefault this
  | Select name => snd (setGenerator heap name this)
  end.

(** The manager after a sequence of calls on a new instance. *)
Definition after_calls (calls : list method_call) : MusicGeneratorManager :=
  fold_left apply_call calls constructor.
End Calls.

(** What holds of the three fields after any sequence of calls: the fallback
    is the generator registered first, and the current generator is a
    registered one (null only as long as nothing is registered). *)
Definition registered_invariant (this : MusicGeneratorManager) : Prop :=
  fallbackGenerator this = head (generators this)
  /\ match currentGenerator this with
     | Some g => In g (generators this)
     | None => generators this = []
     end.

End Manager.

(** ** tone-music-generator.js: the generator object *)
Module ToneGenerator.

(** What [isAvailable] reads and writes: whether the global [Tone] is defined
    ([typeof Tone !== 'undefined']), the field [isInitialized], and the rest
    of the environment (audio context, console, page). *)
Record world (Ext : Type) := mkWorld {
  Tone_defined : bool;
  isInitialized : bool;
  ext : Ext
}.
Arguments mkWorld {Ext}.
Arguments Tone_defined {Ext}.
Arguments isInitialized {Ext}.
Arguments ext {Ext}.

Section Externals.
Context {Ext Result : Type}.
(** [await Tone.start()] *)
Variable Tone_start : Ext -> outcome unit * Ext.
(** [await this._generateMusic(params, onProgress)]: the synthesis, recording
    and decoding done by the audio engine. *)
Variable _generateMusic :
  Tone.MusicParameters -> option (Z -> Ext -> Ext) -> Ext -> outcome Result * Ext.

(** [getName()] *)
Definition getName : string := "Tone.js Generator".

(** [isAvailable()] *)
Definition isAvailable (w : world Ext) : outcome bool * world Ext :=
  if negb (Tone_defined w) then (inr false, w)
  else if negb (isInitialized w) then
    match Tone_start (ext w) with
    | (inr _, e) => (inr true, mkWorld (Tone_defined w) true e)
    | (inl _, e) => (inr false, mkWorld (Tone_defined w) (isInitialized w) e)
    end
  else (inr true, w).

(** [generate(description, onProgress)] *)
Definition generate (description : string) (onProgress : option (Z -> Ext -> Ext))
    (w : world Ext) : outcome Result * world Ext :=
  match isAvailable w with
  | (inr true, w1) =>
      let params := Tone._parseDescription description in
      let e := match onProgress with
               | Some report => report 10 (ext w1)
               | None => ext w1
               end in
      let '(audioBuffer, e') := _generateMusic params onProgress e in
      (audioBuffer, mkWorld (Tone_defined w1) (isInitialized w1) e')
  | (inr false, w1) => (inl (mkError "Tone.js is not available"), w1)
  | (inl error, w1) => (inl error, w1)
  end.

(** The object behind the [MusicGenerator] interface. *)
Definition object
  : MusicGenerator.t (world Ext) Result (option (Z -> Ext -> Ext)) :=
  MusicGenerator.mk getName isAvailable generate.
End Externals.

(** *** An environment for the examples

    The environment is a log; the audio engine starts without error and the
    rendering returns the tempo it was asked for. *)
Definition example_start (e : list string) : outcome unit * list string :=
  (inr tt, e ++ ["Tone.start"]).

Definition example_generateMusic (params : Tone.MusicParameters)
    (onProgress : option (Z -> list string -> list string)) (e : list string)
  : outcome Z * list string :=
  (inr (Tone.tempo params), e ++ ["_generateMusic"]).

Definition example_report (progress : Z) (e : list string) : list string :=
  e ++ ["onProgress"].

End ToneGenerator.

(** ** app.js: [audioBufferToWav] *)
Module Wav.

(** *** Numbers

    A sample read from a [Float32Array] is a JavaScript Number: NaN, an
    infinity or a finite value, here an exact rational.  Every operation the
    encoder applies to a sample is exact on binary32 inputs (a comparison, or
    a product of a 24-bit significand of magnitude at most 1 with a 15-bit
    integer, which fits the 53-bit significand of a Number), so no rounding
    has to be modelled.  The sign of zero is not observable through
    [setInt16] and is not tracked. *)
Inductive number :=
| NaN
| Infinity (negative : bool)
| Finite (q : Q).

(** [a < b] on finite values *)
Definition Qlt_bool (a b : Q) : bool := negb (Qle_bool b a).

(** [Math.min(a, b)] *)
Definition Math_min (a b : number) : number :=
  match a, b with
  | NaN, _ | _, NaN => NaN
  | Infinity true, _ | _, Infinity true => Infinity true
  | Infinity false, y => y
  | x, Infinity false => x
  | Finite p, Finite q => if Qlt_bool q p then Finite q else Finite p
  end.

(** [Math.max(a, b)] *)
Definition Math_max (a b : number) : number :=
  match a, b with
  | NaN, _ | _, NaN => NaN
  | Infinity false, _ | _, Infinity false => Infinity false
  | Infinity true, y => y
  | x, Infinity true => x
  | Finite p, Finite q => if Qlt_bool p q then Finite q else Finite p
  end.

(** [a < 0] *)
Definition lt_zero (a : number) : bool :=
  match a with
  | NaN => false
  | Infinity negative => negative
  | Finite q => Qlt_bool q 0
  end.

(** [a * k] for an integer literal [k > 0] *)
Definition times (a : number) (k : Z) : number :=
  match a with
  | NaN => NaN
  | Infinity negative => Infinity negative
  | Finite q => Finite (q * inject_Z k)
  end.

(** Truncation toward zero of a finite value. *)
Definition truncate (q : Q) : Z :=
  if Qlt_bool q 0 then - Qfloor (- q) else Qfloor q.

(** [ToInt16]: non-finite values become 0; finite ones are truncated and
    wrapped into the signed 16-bit range. *)
Definition ToInt16 (a : number) : Z :=
  match a with
  | NaN | Infinity _ => 0
  | Finite q =>
      let int16bit := truncate q mod 65536 in
      if 32768 <=? int16bit then int16bit - 65536 else int16bit
  end.

(** *** The [DataView] over the freshly allocated [ArrayBuffer]

    The buffer is an array of bytes (integers below 256) and [pos] is the
    local write cursor.  A write past the end throws a [RangeError]. *)
Record state := mkState {
  view : list Z;
  pos : nat
}.

(** A computation over the view and the cursor that may throw. *)
Definition M (A : Type) : Type := state -> option (A * state).

Definition ret {A} (a : A) : M A := fun st => Some (a, st).
Definition bind {A B} (m : M A) (k : A -> M B) : M B :=
  fun st => match m st with
            | Some (a, st') => k a st'
            | None => None
            end.
Definition throw {A} : M A := fun _ => None.

Declare Scope wav_scope.
Delimit Scope wav_scope with wav.
Notation "x <- m ;; k" := (bind m (fun x => k))
  (at level 100, m at next level, right associativity) : wav_scope.
Notation "m ;; k" := (bind m (fun _ => k))
  (at level 100, right associativity) : wav_scope.
Local Open Scope wav_scope.

Definition get_pos : M nat := fun st => Some (pos st, st).
(** [pos += k] *)
Definition advance (k : nat) : M unit :=
  fun st => Some (tt, mkState (view st) (pos st + k)).

(** Byte [k] of the two's complement representation of [value]. *)
Definition byte_of (value : Z) (k : nat) : Z :=
  Z.land (Z.shiftr value (8 * Z.of_nat k)) 255.

(** Store the [width] low bytes of [value] at [byteOffset], least
    significant first ([littleEndian = true]). *)
Definition store_le (width : nat) (byteOffset : nat) (value : Z) : M unit :=
  fun st =>
    if decide (byteOffset + width <= List.length (view st))%nat then
      Some (tt, mkState
                  (fold_left (fun bytes k => <[(byteOffset + k)%nat := byte_of value k]> bytes)
                             (seq 0 width) (view st))
                  (pos st))
    else None.

(** [view.setUint8(byteOffset, value)] *)
Definition setUint8 (byteOffset : nat) (value : Z) : M unit :=
  store_le 1 byteOffset value.
(** [view.setUint16(byteOffset, value, true)] *)
Definition setUint16 (byteOffset : nat) (value : Z) : M unit :=
  store_le 2 byteOffset value.
(** [view.setUint32(byteOffset, value, true)] *)
Definition setUint32 (byteOffset : nat) (value : Z) : M unit :=
  store_le 4 byteOffset value.
(** [view.setInt16(byteOffset, value, true)] *)
Definition setInt16 (byteOffset : nat) (value : number) : M unit :=
  store_le 2 byteOffset (ToInt16 value).

(** [for (const x of xs) body(x)] *)
Fixpoint for_each {A} (xs : list A) (body : A -> M unit) : M unit :=
  match xs with
  | [] => ret tt
  | x :: rest => body x ;; for_each rest body
  end.

(** [str.charCodeAt(i)] for each [i] *)
Definition char_codes (str : string) : list Z :=
  map (fun c => Z.of_nat (nat_of_ascii c)) (list_ascii_of_string str).

(** The local closure [writeString]. *)
Definition writeString (str : string) : M unit :=
  for_each (char_codes str) (fun code =>
    p <- get_pos ;; advance 1 ;; setUint8 p code).

(** *** The [AudioBuffer] interface *)
Record AudioBuffer := mkAudioBuffer {
  length : nat;
  numberOfChannels : nat;
  sampleRate : Z;
  channelData : list (list number)
}.

(** [buffer.getChannelData(i)] throws for an index that is no channel. *)
Definition getChannelData (buffer : AudioBuffer) (i : nat) : M (list number) :=
  match channelData buffer !! i with
  | Some data => if decide (i < numberOfChannels buffer)%nat then ret data else throw
  | None => throw
  end.

(** The first loop: [channels.push(buffer.getChannelData(i))]. *)
Fixpoint collect_channels (buffer : AudioBuffer) (indices : list nat)
    (channels : list (list number)) : M (list (list number)) :=
  match indices with
  | [] => ret channels
  | i :: rest =>
      data <- getChannelData buffer i ;;
      collect_channels buffer rest (channels ++ [data])
  end.

(** [channels[channel][i]]: an index past the end reads [undefined], which
    [Math.min] converts to NaN. *)
Definition read_sample (channels : list (list number)) (channel i : nat) : number :=
  match channels !! channel with
  | Some data => default NaN (data !! i)
  | None => NaN
  end.

(** The body of the inner loop. *)
Definition write_sample (channels : list (list number)) (i channel : nat) : M unit :=
  let sample := Math_max (Finite (-1)) (Math_min (Finite 1) (read_sample channels channel i)) in
  let sample := if lt_zero sample then times sample 32768 else times sample 32767 in
  p <- get_pos ;;
  setInt16 p sample ;;
  advance 2.

Definition wav_body (buffer : AudioBuffer) : M unit :=
  let length := Z.of_nat (length buffer) in
  let numberOfChannels := Z.of_nat (numberOfChannels buffer) in
  let sampleRate := sampleRate buffer in
  writeString "RIFF" ;;
  p <- get_pos ;; setUint32 p (36 + length * numberOfChannels * 2) ;; advance 4 ;;
  writeString "WAVE" ;;
  writeString "fmt " ;;
  p <- get_pos ;; setUint32 p 16 ;; advance 4 ;;
  p <- get_pos ;; setUint16 p 1 ;; advance 2 ;;
  p <- get_pos ;; setUint16 p numberOfChannels ;; advance 2 ;;
  p <- get_pos ;; setUint32 p sampleRate ;; advance 4 ;;
  p <- get_pos ;; setUint32 p (sampleRate * numberOfChannels * 2) ;; advance 4 ;;
  p <- get_pos ;; setUint16 p (numberOfChannels * 2) ;; advance 2 ;;
  p <- get_pos ;; setUint16 p 16 ;; advance 2 ;;
  writeString "data" ;;
  p <- get_pos ;; setUint32 p (length * numberOfChannels * 2) ;; advance 4 ;;
  channels <- collect_channels buffer (seq 0 (Wav.numberOfChannels buffer)) [] ;;
  for_each (seq 0 (Wav.length buffer)) (fun i =>
    for_each (seq 0 (Wav.numberOfChannels buffer)) (fun channel =>
      write_sample channels i channel)).

(** [audioBufferToWav(buffer)]: the bytes of the returned [ArrayBuffer], or
    [None] when an exception escapes. *)
Definition audioBufferToWav (buffer : AudioBuffer) : option (list Z) :=
  let arrayBuffer :=
    replicate (44 + length buffer * numberOfChannels buffer * 2) 0 in
  match wav_body buffer (mkState arrayBuffer 0) with
  | Some (_, st) => Some (view st)
  | None => None
  end.

(** *** The byte sequence, written out as a list

    What the writes of [wav_body] amount to; [WavFacts.audioBufferToWav_bytes]
    relates the two. *)

(** The bytes [store_le] writes. *)
Definition le_bytes (width : nat) (value : Z) : list Z :=
  map (byte_of value) (seq 0 width).

(** The state in which [out] has been written from the start of a buffer
    of [n] bytes and the cursor stands behind it. *)
Definition written (n : nat) (out : list Z) : state :=
  mkState (out ++ replicate (n - List.length out) 0) (List.length out).

(** The two assignments to [sample] in the inner loop. *)
Definition scaled (x : number) : number :=
  let sample := Math_max (Finite (-1)) (Math_min (Finite 1) x) in
  if lt_zero sample then times sample 32768 else times sample 32767.

Definition sample_bytes (channels : list (list number)) (i channel : nat) : list Z :=
  le_bytes 2 (ToInt16 (scaled (read_sample channels channel i))).

Definition frame_bytes (channels : list (list number)) (nch i : nat) : list Z :=
  flat_map (sample_bytes channels i) (seq 0 nch).

Definition data_bytes (buffer : AudioBuffer) : Z :=
  Z.of_nat (length buffer) * Z.of_nat (numberOfChannels buffer) * 2.

Definition header_bytes (buffer : AudioBuffer) : list Z :=
  char_codes "RIFF"
  ++ le_bytes 4 (36 + data_bytes buffer)
  ++ char_codes "WAVE"
  ++ char_codes "fmt "
  ++ le_bytes 4 16
  ++ le_bytes 2 1
  ++ le_bytes 2 (Z.of_nat (numberOfChannels buffer))
  ++ le_bytes 4 (sampleRate buffer)
  ++ le_bytes 4 (sampleRate buffer * Z.of_nat (numberOfChannels buffer) * 2)
  ++ le_bytes 2 (Z.of_nat (numberOfChannels buffer) * 2)
  ++ le_bytes 2 16
  ++ char_codes "data"
  ++ le_bytes 4 (data_bytes buffer).

Definition wav_bytes (buffer : AudioBuffer) : list Z :=
  header_bytes buffer
  ++ flat_map (frame_bytes (channelData buffer) (numberOfChannels buffer))
              (seq 0 (length buffer)).

(** *** Reading a WAV file back (the layout, as a decoder sees it) *)

(** The unsigned value of little-endian bytes. *)
Fixpoint le_value (bytes : list Z) : Z :=
  match bytes with
  | [] => 0
  | b :: rest => b + 256 * le_value rest
  end.


(** [width] bytes starting at [offset]. *)
Definition slice (offset width : nat) (bytes : list Z) : list Z :=
  take width (drop offset bytes).

(** The quantised value of a sample: clamp to [-1, 1], scale by 32768
    below zero and by 32767 otherwise, drop the fraction. *)
Definition clamp (q : Q) : Q :=
  if Qlt_bool 1 q then 1%Q else if Qlt_bool q (-1) then (-1)%Q else q.

Definition quantize (c : Q) : Z :=
  if Qlt_bool c 0 then truncate (c * 32768) else truncate (c * 32767).

Definition pcm16 (sample : number) : Z :=
  match sample with
  | NaN => 0
  | Infinity negative => if negative then -32768 else 32767
  | Finite q => quantize (clamp q)
  end.


(** A two-channel, three-frame buffer used in the examples. *)
Definition sample_buffer : AudioBuffer :=
  mkAudioBuffer 3 2 44100
    [[Finite (1#2); Finite (-3#2); NaN];
     [Finite (-1#4); Finite 0; Infinity false]].

(** The header values fit their fields: two bytes for the channel count and
    the block alignment, four bytes for the rates and the sizes. *)
Definition fits (buffer : AudioBuffer) : Prop :=
  Z.of_nat (numberOfChannels buffer) * 2 < 2 ^ 16
  /\ 0 <= sampleRate buffer < 2 ^ 32
  /\ sampleRate buffer * Z.of_nat (numberOfChannels buffer) * 2 < 2 ^ 32
  /\ 36 + data_bytes buffer < 2 ^ 32.

End Wav.

(* ===================================================================== *)
(** * Part II: properties                                                 *)
(* ===================================================================== *)

(** ** Substring search *)
Module JsStringFacts.
Import JsString.

Lemma append_cons (c : ascii) (s t : string) :
  String c s +:+ t = String c (s +:+ t).
Proof. reflexivity. Qed.

Lemma append_empty (t : string) : EmptyString +:+ t = t.
Proof. reflexivity. Qed.

Lemma prefix_true_iff (k s : string) :
  String.prefix k s = true <-> exists rest, s = k +:+ rest.
Proof.
  revert s; induction k as [|c k IH]; intros s.
  - split; [intros _; by exists s | by destruct s].
  - destruct s as [|c' s]; simpl.
    + split; [done | intros [rest Hrest]; discriminate].
    + destruct (Ascii.ascii_dec c c') as [->|Hne].
      * rewrite IH. split; intros [rest Hrest]; exists rest;
          rewrite append_cons in *; congruence.
      * split; [done | intros [rest Hrest]; rewrite append_cons in Hrest; congruence].
Qed.

(** [includes] is substring containment. *)
Lemma includes_true_iff (s k : string) :
  includes s k = true <-> exists before after, s = before +:+ k +:+ after.
Proof.
  induction s as [|c s IH].
  - change (includes "" k) with (String.prefix k "" || false).
    rewrite orb_false_r, prefix_true_iff. split.
    + intros [rest Hrest]. by exists EmptyString, rest.
    + intros [before [after Heq]]. destruct before; [by exists after | discriminate].
  - change (includes (String c s) k)
      with (String.prefix k (String c s) || includes s k).
    rewrite orb_true_iff, prefix_true_iff, IH. split.
    + intros [[rest Hrest] | [before [after Heq]]].
      * by exists EmptyString, rest.
      * exists (String c before), after. by rewrite append_cons, <- Heq.
    + intros [before [after Heq]]. destruct before as [|c' before].
      * left. by exists after.
      * right. exists before, after. rewrite append_cons in Heq. congruence.
Qed.

Lemma includes_any_false (s : string) (ks : list string) :
  includes_any s ks = false <-> Forall (fun k => includes s k = false) ks.
Proof.
  unfold includes_any. induction ks as [|k ks IH]; simpl.
  - split; [constructor | done].
  - rewrite orb_false_iff, IH, Forall_cons. done.
Qed.

Lemma includes_any_app_false (s : string) (ks1 ks2 : list string) :
  includes_any s (ks1 ++ ks2) = false <->
  includes_any s ks1 = false /\ includes_any s ks2 = false.
Proof. unfold includes_any. rewrite existsb_app, orb_false_iff. done. Qed.

End JsStringFacts.

(** ** The parameter extractor *)
Module ToneFacts.
Import JsString JsStringFacts Tone.

(** Turn [includes_any desc table = false] into one equation per keyword
    of the table and rewrite with all of them. *)
Ltac absent H :=
  apply includes_any_false in H;
  match type of H with
  | Forall ?P ?table =>
      let literals := eval cbv in table in change (Forall P literals) in H
  end;
  repeat match type of H with
         | Forall _ (_ :: _) =>
             let Hk := fresh "Hk" in
             apply Forall_cons in H as [Hk H]; simpl in Hk; try rewrite Hk
         end;
  clear H.

(** *** Each pass is the identity on a text without its keywords *)

Lemma tempo_detection_absent desc p :
  includes_any desc (slow_keywords ++ fast_keywords ++ moderate_keywords
                     ++ upbeat_keywords) = false ->
  tempo_detection desc p = p.
Proof. intros H. unfold tempo_detection. absent H. done. Qed.

Lemma key_detection_absent desc p :
  includes_any desc key_phrases = false -> key_detection desc p = p.
Proof.
  intros H. unfold key_detection, keys. cbv [key_loop String.append].
  absent H. done.
Qed.

Lemma scale_detection_absent desc p :
  includes_any desc scale_keywords = false -> scale_detection desc p = p.
Proof. intros H. unfold scale_detection. absent H. done. Qed.

Lemma mood_detection_absent desc p :
  includes_any desc mood_keywords = false -> mood_detection desc p = p.
Proof. intros H. unfold mood_detection. absent H. done. Qed.

Lemma duration_detection_absent desc p :
  includes_any desc duration_keywords = false -> duration_detection desc p = p.
Proof. intros H. unfold duration_detection. absent H. done. Qed.

Lemma complexity_detection_absent desc p :
  includes_any desc complexity_keywords = false -> complexity_detection desc p = p.
Proof. intros H. unfold complexity_detection. absent H. done. Qed.

(** *** Frame lemmas: which pass leaves which field alone *)

Lemma key_loop_tempo desc ks p : tempo (key_loop desc ks p) = tempo p.
Proof.
  induction ks as [|k ks IH]; simpl; [done|].
  destruct (_ || _); [by destruct (includes desc "minor") | done].
Qed.

Lemma scale_detection_tempo desc p : tempo (scale_detection desc p) = tempo p.
Proof. unfold scale_detection. by repeat destruct (includes _ _). Qed.

Lemma push_if_tempo c n p : tempo (push_if c n p) = tempo p.
Proof. by destruct c. Qed.
Lemma push_if_scale c n p : scale (push_if c n p) = scale p.
Proof. by destruct c. Qed.

Lemma instrument_detection_tempo desc p :
  tempo (instrument_detection desc p) = tempo p.
Proof.
  unfold instrument_detection. destruct (_ =? _)%nat; simpl;
    by rewrite !push_if_tempo.
Qed.

Lemma instrument_detection_scale desc p :
  scale (instrument_detection desc p) = scale p.
Proof.
  unfold instrument_detection. destruct (_ =? _)%nat; simpl;
    by rewrite !push_if_scale.
Qed.

Lemma duration_detection_fields desc p :
  tempo (duration_detection desc p) = tempo p
  /\ scale (duration_detection desc p) = scale p
  /\ instruments (duration_detection desc p) = instruments p.
Proof. unfold duration_detection. by repeat destruct (includes _ _). Qed.

Lemma complexity_detection_fields desc p :
  tempo (complexity_detection desc p) = tempo p
  /\ scale (complexity_detection desc p) = scale p
  /\ instruments (complexity_detection desc p) = instruments p.
Proof. unfold complexity_detection. by repeat destruct (_ || _). Qed.

Lemma mood_detection_instruments desc p :
  instruments (mood_detection desc p) = instruments p.
Proof. unfold mood_detection. by repeat destruct (_ || _). Qed.

(** Without an energetic-class or calm-class keyword the mood pass cannot
    reach a branch that assigns the tempo. *)
Lemma mood_detection_tempo desc p :
  includes_any desc clamping_mood_keywords = false ->
  tempo (mood_detection desc p) = tempo p.
Proof.
  intros H. unfold mood_detection. absent H. simpl.
  by repeat destruct (_ || _).
Qed.

(** The parameters as they stand when the mood pass starts. *)
Local Abbreviation before_mood desc :=
  (instrument_detection desc
     (scale_detection desc
        (key_detection desc (tempo_detection desc initial_params)))).

Lemma tempo_before_mood desc :
  tempo (before_mood desc) = tempo (tempo_detection desc initial_params).
Proof.
  rewrite instrument_detection_tempo, scale_detection_tempo.
  apply key_loop_tempo.
Qed.

Lemma scale_before_mood desc :
  scale (before_mood desc)
  = scale (scale_detection desc
             (key_detection desc (tempo_detection desc initial_params))).
Proof. apply instrument_detection_scale. Qed.

(** The last two passes do not touch tempo, scale or instruments. *)
Lemma parse_tempo d :
  tempo (_parseDescription d)
  = tempo (mood_detection (toLowerCase d) (before_mood (toLowerCase d))).
Proof.
  unfold _parseDescription.
  pose proof (complexity_detection_fields (toLowerCase d)) as Hc.
  pose proof (duration_detection_fields (toLowerCase d)) as Hd.
  rewrite (proj1 (Hc _)). apply (proj1 (Hd _)).
Qed.

Lemma parse_scale d :
  scale (_parseDescription d)
  = scale (mood_detection (toLowerCase d) (before_mood (toLowerCase d))).
Proof.
  unfold _parseDescription.
  pose proof (complexity_detection_fields (toLowerCase d)) as Hc.
  pose proof (duration_detection_fields (toLowerCase d)) as Hd.
  rewrite (proj1 (proj2 (Hc _))). apply (proj1 (proj2 (Hd _))).
Qed.

Lemma parse_instruments d :
  instruments (_parseDescription d)
  = instruments (instrument_detection (toLowerCase d)
      (scale_detection (toLowerCase d)
         (key_detection (toLowerCase d)
            (tempo_detection (toLowerCase d) initial_params)))).
Proof.
  unfold _parseDescription.
  pose proof (complexity_detection_fields (toLowerCase d)) as Hc.
  pose proof (duration_detection_fields (toLowerCase d)) as Hd.
  rewrite (proj2 (proj2 (Hc _))), (proj2 (proj2 (Hd _))).
  apply mood_detection_instruments.
Qed.

(** The tempo pass assigns the tempo of the first class of the table that
    the text matches, and leaves the default when there is none. *)
Lemma tempo_detection_first_match desc p :
  tempo (tempo_detection desc p)
  = match matching_classes desc tempo_classes with
    | [] => tempo p
    | c :: _ => snd c
    end.
Proof.
  unfold tempo_detection, matching_classes, tempo_classes. simpl.
  rewrite !orb_false_r, <- !orb_assoc.
  by repeat destruct (_ || _).
Qed.

Lemma mood_detection_tempo_sad desc p :
  includes desc "sad" = true -> tempo (mood_detection desc p) = tempo p.
Proof.
  intros Hsad. unfold mood_detection. rewrite Hsad. simpl.
  by destruct (_ || _).
Qed.

Lemma tempo_detection_instruments desc p :
  instruments (tempo_detection desc p) = instruments p.
Proof. unfold tempo_detection. by repeat destruct (_ || _). Qed.

Lemma key_loop_instruments desc ks p :
  instruments (key_loop desc ks p) = instruments p.
Proof.
  induction ks as [|k ks IH]; [done|].
  cbn [key_loop]. destruct (_ || _); [by destruct (includes desc "minor") | done].
Qed.

Lemma scale_detection_instruments desc p :
  instruments (scale_detection desc p) = instruments p.
Proof. unfold scale_detection. by repeat destruct (includes _ _). Qed.

(** The instrument pass never leaves the list empty. *)
Lemma instrument_detection_nonempty desc p :
  instruments (instrument_detection desc p) <> [].
Proof.
  unfold instrument_detection.
  destruct (_ =? _)%nat eqn:Hlen; [done|].
  apply Nat.eqb_neq in Hlen. intros Hnil. by rewrite Hnil in Hlen.
Qed.

Lemma instrument_detection_absent desc p :
  instruments p = [] ->
  includes_any desc instrument_keywords = false ->
  instruments (instrument_detection desc p) = ["piano"; "bass"].
Proof.
  intros Hnil H. unfold instrument_detection. absent H.
  simpl. by rewrite Hnil.
Qed.

(** *** The claims *)

(** C2, as stated, fails: "Minor or Major" contains both words and no mood
    keyword, yet the scale is minor, not major. *)
Lemma minor_and_major_is_not_major :
  includes (toLowerCase "Minor or Major") "minor" = true
  /\ includes (toLowerCase "Minor or Major") "major" = true
  /\ includes_any (toLowerCase "Minor or Major") mood_keywords = false
  /\ scale (_parseDescription "Minor or Major") <> "major".
Proof. vm_compute. repeat split; discriminate. Qed.

(** C2 (amended): for every description containing both "minor" and
    "major" (case-insensitive) and no mood keyword, the extracted scale is
    minor: the "major" test is the [else] branch of the "minor" test. *)
Theorem minor_and_major_is_minor (d : string) :
  includes (toLowerCase d) "minor" = true ->
  includes (toLowerCase d) "major" = true ->
  includes_any (toLowerCase d) mood_keywords = false ->
  scale (_parseDescription d) = "minor".
Proof.
  intros Hminor _ Hmood.
  rewrite parse_scale, (mood_detection_absent _ _ Hmood), scale_before_mood.
  unfold scale_detection. by rewrite Hminor.
Qed.

Lemma minor_and_major_is_minor_witness :
  scale (_parseDescription "Minor or Major") = "minor".
Proof. apply minor_and_major_is_minor; reflexivity. Defined.

(** C3, as stated, fails: "slow but upbeat" matches the slow class and the
    upbeat class, holds no tempo-clamping mood keyword, and gets tempo 60,
    the tempo of the first matching class, not 140. *)
Lemma slow_and_upbeat_is_not_140 :
  includes (toLowerCase "slow but upbeat") "slow" = true
  /\ includes (toLowerCase "slow but upbeat") "upbeat" = true
  /\ map snd (matching_classes (toLowerCase "slow but upbeat") tempo_classes)
     = [60; 140]
  /\ includes_any (toLowerCase "slow but upbeat") clamping_mood_keywords = false
  /\ tempo (_parseDescription "slow but upbeat") = 60
  /\ tempo (_parseDescription "slow but upbeat") <> 140.
Proof. vm_compute. repeat split; discriminate. Qed.

(** C3 (amended): for every description that matches more than one tempo
    class and holds no mood keyword that clamps the tempo, the extracted
    tempo is that of the FIRST matching class in the order
    slow, fast, moderate, upbeat (the tests form an else-if chain); in
    particular a description containing "slow" and "upbeat" gets tempo 60. *)
Theorem first_tempo_class_wins (d : string) :
  (1 < List.length (matching_classes (toLowerCase d) tempo_classes))%nat ->
  includes_any (toLowerCase d) clamping_mood_keywords = false ->
  Some (tempo (_parseDescription d))
  = head (map snd (matching_classes (toLowerCase d) tempo_classes))
  /\ (includes (toLowerCase d) "slow" = true ->
      includes (toLowerCase d) "upbeat" = true ->
      tempo (_parseDescription d) = 60).
Proof.
  intros Hmany Hclamp.
  assert (Htempo : tempo (_parseDescription d)
                   = tempo (tempo_detection (toLowerCase d) initial_params)).
  { by rewrite parse_tempo, (mood_detection_tempo _ _ Hclamp), tempo_before_mood. }
  split.
  - rewrite Htempo, tempo_detection_first_match.
    destruct (matching_classes _ _) as [|c rest]; [simpl in Hmany; lia | done].
  - intros Hslow _. rewrite Htempo. unfold tempo_detection. by rewrite Hslow.
Qed.

Lemma first_tempo_class_wins_witness :
  tempo (_parseDescription "slow but upbeat") = 60.
Proof.
  apply (first_tempo_class_wins "slow but upbeat"); vm_compute; (lia || reflexivity).
Defined.

(** C6: a description without any recognised keyword yields exactly the
    default parameter set: tempo 120, key C, scale major, instruments
    [piano, bass], mood neutral, duration 5 seconds, complexity medium. *)
Theorem no_keyword_gives_defaults (d : string) :
  includes_any (toLowerCase d) recognized_keywords = false ->
  _parseDescription d = default_params.
Proof.
  unfold recognized_keywords. rewrite !includes_any_app_false.
  intros (Hslow & Hfast & Hmoderate & Hupbeat & Hkey & Hscale & Hinstr
          & Hmood & Hduration & Hcomplexity).
  unfold _parseDescription.
  rewrite tempo_detection_absent by by rewrite !includes_any_app_false.
  rewrite (key_detection_absent _ _ Hkey), (scale_detection_absent _ _ Hscale).
  assert (Hi : instrument_detection (toLowerCase d) initial_params = default_params).
  { unfold instrument_detection. absent Hinstr. reflexivity. }
  rewrite Hi.
  rewrite (mood_detection_absent _ _ Hmood).
  by rewrite (duration_detection_absent _ _ Hduration),
             (complexity_detection_absent _ _ Hcomplexity).
Qed.

Lemma no_keyword_gives_defaults_witness :
  _parseDescription "Write me a tune" = default_params.
Proof. apply no_keyword_gives_defaults. reflexivity. Defined.

(** C8, as stated, fails: "happy sad fast" contains "sad" and "fast" and no
    slow-class keyword, but the happy branch of the mood chain runs first
    and the scale is major. *)
Lemma sad_and_fast_is_not_minor :
  includes (toLowerCase "happy sad fast") "sad" = true
  /\ includes (toLowerCase "happy sad fast") "fast" = true
  /\ includes_any (toLowerCase "happy sad fast") slow_keywords = false
  /\ scale (_parseDescription "happy sad fast") <> "minor".
Proof. vm_compute. repeat split; discriminate. Qed.

(** C8 (amended): for every description containing "sad" and "fast", no
    slow-class tempo keyword and no happy-class mood keyword (happy, joyful,
    cheerful), the extracted tempo is 160 and the scale is minor. *)
Theorem sad_and_fast (d : string) :
  includes (toLowerCase d) "sad" = true ->
  includes (toLowerCase d) "fast" = true ->
  includes_any (toLowerCase d) slow_keywords = false ->
  includes_any (toLowerCase d) happy_keywords = false ->
  tempo (_parseDescription d) = 160 /\ scale (_parseDescription d) = "minor".
Proof.
  intros Hsad Hfast Hslow Hhappy. split.
  - rewrite parse_tempo, (mood_detection_tempo_sad _ _ Hsad), tempo_before_mood.
    unfold tempo_detection. absent Hslow. by rewrite Hfast.
  - rewrite parse_scale. unfold mood_detection. absent Hhappy. by rewrite Hsad.
Qed.

Lemma sad_and_fast_witness :
  tempo (_parseDescription "A sad, FAST waltz") = 160
  /\ scale (_parseDescription "A sad, FAST waltz") = "minor".
Proof. apply sad_and_fast; reflexivity. Defined.

(** C9: the instruments list of every extracted parameter set is non-empty,
    and it is the default pair [piano, bass] when no instrument keyword
    occurs in the description. *)
Theorem instruments_never_empty (d : string) :
  instruments (_parseDescription d) <> []
  /\ (includes_any (toLowerCase d) instrument_keywords = false ->
      instruments (_parseDescription d) = ["piano"; "bass"]).
Proof.
  rewrite parse_instruments. split.
  - apply instrument_detection_nonempty.
  - intros Hnone. apply instrument_detection_absent; [|done].
    unfold key_detection.
    by rewrite scale_detection_instruments, key_loop_instruments,
               tempo_detection_instruments.
Qed.

Lemma instruments_never_empty_witness :
  instruments (_parseDescription "a slow song in c minor") = ["piano"; "bass"].
Proof. apply (proj2 (instruments_never_empty "a slow song in c minor")). reflexivity. Defined.

End ToneFacts.

(** ** The fallback manager *)
Module ManagerFacts.
Import Manager.

Lemma omap_id_map_Some {A} (l : list A) : omap id (map Some l) = l.
Proof. induction l as [|x l IH]; simpl; [done | f_equal; exact IH]. Qed.

(** The trial list without the detour through nullable entries. *)
Lemma generatorsToTry_unfold (this : MusicGeneratorManager) :
  generatorsToTry this
  = match currentGenerator this with
    | Some current => current :: filter (fun g => g <> current) (generators this)
    | None => generators this
    end.
Proof.
  unfold generatorsToTry. destruct (currentGenerator this) as [current|]; simpl.
  - rewrite omap_id_map_Some. f_equal.
    apply list_filter_iff. intros g. split; congruence.
  - rewrite omap_id_map_Some.
    induction (generators this) as [|g l IH]; [done|].
    rewrite filter_cons_True by done. by rewrite IH.
Qed.

(** C7, as stated, fails: with one generator registered twice behind the
    selected one, the trial list holds it twice. *)
Lemma trial_list_keeps_duplicates :
  generators twice_registered = [0; 1; 1]%nat
  /\ currentGenerator twice_registered = Some 0%nat
  /\ generatorsToTry twice_registered = [0; 1; 1]%nat
  /\ ~ NoDup (generatorsToTry twice_registered).
Proof.
  repeat split; try reflexivity.
  change (generatorsToTry twice_registered) with [0; 1; 1]%nat.
  intros Hnodup. apply NoDup_cons in Hnodup as [_ Hnodup].
  apply NoDup_cons in Hnodup as [Hnotin _]. apply Hnotin. constructor.
Qed.

(** C7 (amended): for every manager state, the trial list of [generate] is
    the selected generator (unless it is null) followed by the registered
    generators other than the selected one, in registration order; every
    occurrence of the selected one is dropped from the tail and no null
    entry remains.  Other generators are kept as often as they were
    registered: the list is duplicate-free when the registered list is. *)
Theorem trial_list_order (this : MusicGeneratorManager) :
  generatorsToTry this
  = match currentGenerator this with
    | Some current => current :: filter (fun g => g <> current) (generators this)
    | None => generators this
    end
  /\ (forall current, currentGenerator this = Some current ->
      current ∉ tail (generatorsToTry this))
  /\ (NoDup (generators this) -> NoDup (generatorsToTry this)).
Proof.
  rewrite generatorsToTry_unfold. split; [done|]. split.
  - intros current ->. simpl. rewrite list_elem_of_filter. tauto.
  - intros Hnodup. destruct (currentGenerator this) as [current|]; [|done].
    apply NoDup_cons. split.
    + rewrite list_elem_of_filter. tauto.
    + by apply NoDup_filter.
Qed.

Lemma trial_list_order_witness :
  generatorsToTry example_manager = [0; 1; 2]%nat
  /\ NoDup (generatorsToTry example_manager).
Proof.
  split.
  - exact (proj1 (trial_list_order example_manager)).
  - apply (proj2 (proj2 (trial_list_order example_manager))).
    change (generators example_manager) with [0; 1; 2]%nat.
    apply (bool_decide_unpack _). vm_compute. exact I.
Defined.

Section WithHeap.
Context {World Result Progress : Type}.
Variable heap : ref -> MusicGenerator.t World Result Progress.
Variable description : string.
Variable onProgress : Progress.

Lemma find_first {A} (f : A -> bool) (l : list A) :
  (exists before x after,
      l = before ++ x :: after /\ f x = true
      /\ Forall (fun y => f y = false) before /\ List.find f l = Some x)
  \/ (Forall (fun y => f y = false) l /\ List.find f l = None).
Proof.
  induction l as [|x l IH]; [right; by split|].
  simpl. destruct (f x) eqn:Hx.
  - left. exists [], x, l. by repeat split.
  - destruct IH as [(before & y & after & -> & Hy & Hbefore & Hfind) | [Hall Hfind]].
    + left. exists (x :: before), y, after. repeat split; [done| |done].
      by apply Forall_cons.
    + right. split; [by apply Forall_cons | done].
Qed.

(** C10: [setGenerator(name)] either finds the first registered generator
    named [name], makes it the current one and returns true (the
    registered list and the fallback generator stay as they were), or no
    registered generator has that name and it returns false with the
    manager unchanged. *)
Theorem setGenerator_first_match (name : string) (this : MusicGeneratorManager) :
  (exists before g after,
      generators this = before ++ g :: after
      /\ MusicGenerator.getName (heap g) = name
      /\ Forall (fun g' => MusicGenerator.getName (heap g') <> name) before
      /\ setGenerator heap name this
         = (true, mkManager (generators this) (Some g) (fallbackGenerator this)))
  \/ (Forall (fun g => MusicGenerator.getName (heap g) <> name) (generators this)
      /\ setGenerator heap name this = (false, this)).
Proof.
  unfold setGenerator.
  destruct (find_first (fun g => String.eqb (MusicGenerator.getName (heap g)) name)
                       (generators this))
    as [(before & g & after & Hsplit & Hg & Hbefore & ->) | [Hall ->]].
  - left. exists before, g, after. repeat split; [done| |].
    + by apply String.eqb_eq.
    + eapply Forall_impl; [exact Hbefore|]. intros g'. apply String.eqb_neq.
  - right. split; [|done].
    eapply Forall_impl; [exact Hall|]. intros g'. apply String.eqb_neq.
Qed.

(** *** The fallback loop *)

Lemma recorded_errors_failed g error (trace : list attempt) :
  recorded_errors (Failed g error :: trace) = error :: recorded_errors trace.
Proof. reflexivity. Qed.

(** C4: with generators A, B, C registered in that order, A selected, A
    unavailable, B available but throwing from [generate], C available and
    succeeding, [generate] returns C's result and throws nothing; the loop
    skipped A without recording an error, caught and recorded B's error,
    and returned at C's success. *)
Theorem fallback_reaches_third (this : MusicGeneratorManager) (a b c : ref)
    (w0 w1 w2 w3 w4 w5 : World) (error : Error) (result : Result) :
  generators this = [a; b; c] ->
  currentGenerator this = Some a ->
  a <> b -> a <> c ->
  MusicGenerator.isAvailable (heap a) w0 = (inr false, w1) ->
  MusicGenerator.isAvailable (heap b) w1 = (inr true, w2) ->
  MusicGenerator.generate (heap b) description onProgress w2 = (inl error, w3) ->
  MusicGenerator.isAvailable (heap c) w3 = (inr true, w4) ->
  MusicGenerator.generate (heap c) description onProgress w4 = (inr result, w5) ->
  generate heap description onProgress this w0
  = (inr result, w5, [Skipped a; Failed b error; Succeeded c]).
Proof.
  intros Hgens Hcur Hab Hac HA HB HBgen HC HCgen.
  unfold generate. rewrite generatorsToTry_unfold, Hcur, Hgens.
  rewrite filter_cons_False by (intros H; by apply H).
  rewrite filter_cons_True by congruence.
  rewrite filter_cons_True by congruence.
  rewrite filter_nil. simpl.
  rewrite HA, HB, HBgen, HC, HCgen. reflexivity.
Qed.

(** The loop does what [loop_spec] says, from any of its states. *)
Lemma try_generators_meets_spec (todo : list ref) (w w' : World)
    (new : list attempt) (result : option Result) :
  loop_spec heap description onProgress todo w new result w' ->
  forall lastError trace,
    try_generators heap description onProgress todo lastError trace w
    = (match result with
       | Some r => inr r
       | None => inl (default (default no_generator_error lastError)
                              (last (recorded_errors new)))
       end, w', trace ++ new).
Proof.
  induction 1 as [w | g rest w w1 w' new result Havail _ IH
                  | g rest w w1 w' error new result Havail _ IH
                  | g rest w w1 w2 w' error new result Havail Hgen _ IH
                  | g rest w w1 w2 result Havail Hgen];
    intros lastError trace; cbn [try_generators].
  - by rewrite app_nil_r.
  - rewrite Havail, IH, <- app_assoc. done.
  - rewrite Havail, IH, <- app_assoc. do 2 f_equal.
    destruct result; [done|].
    rewrite recorded_errors_failed, last_cons.
    by destruct (last (recorded_errors new)).
  - rewrite Havail, Hgen, IH, <- app_assoc. do 2 f_equal.
    destruct result; [done|].
    rewrite recorded_errors_failed, last_cons.
    by destruct (last (recorded_errors new)).
  - by rewrite Havail, Hgen.
Qed.

(** Every run is described by [loop_spec]: the calls can always be made. *)
Lemma loop_spec_total (todo : list ref) :
  forall w, exists new result w',
    loop_spec heap description onProgress todo w new result w'.
Proof.
  induction todo as [|g rest IH]; intros w.
  - exists [], None, w. constructor.
  - destruct (MusicGenerator.isAvailable (heap g) w) as [[error|[|]] w1] eqn:Havail.
    + destruct (IH w1) as (new & result & w' & Hspec).
      exists (Failed g error :: new), result, w'. by eapply spec_check_throws.
    + destruct (MusicGenerator.generate (heap g) description onProgress w1)
        as [[error|r] w2] eqn:Hgen.
      * destruct (IH w2) as (new & result & w' & Hspec).
        exists (Failed g error :: new), result, w'. by eapply spec_generate_throws.
      * exists [Succeeded g], (Some r), w2. by eapply spec_success.
    + destruct (IH w1) as (new & result & w' & Hspec).
      exists (Skipped g :: new), result, w'. by eapply spec_unavailable.
Qed.

(** A run without result has tried every candidate, none with success. *)
Lemma loop_spec_exhausted (todo : list ref) (w w' : World) (new : list attempt)
    (result : option Result) :
  loop_spec heap description onProgress todo w new result w' ->
  result = None ->
  map attempt_generator new = todo /\ failed_only new = true.
Proof.
  induction 1 as [w | g rest w w1 w' new result _ _ IH
                  | g rest w w1 w' error new result _ _ IH
                  | g rest w w1 w2 w' error new result _ _ _ IH
                  | g rest w w1 w2 result _ _];
    intros Hnone; [done | | | | discriminate];
    destruct (IH Hnone) as [Hmap Hfailed]; simpl; by rewrite Hmap.
Qed.

(** A thrown error is the outcome of an exhausted run, and of no other. *)
Lemma failure_is_exhaustion (this : MusicGeneratorManager) (w w' : World)
    (error : Error) (trace : list attempt) :
  generate heap description onProgress this w = (inl error, w', trace) ->
  loop_spec heap description onProgress (generatorsToTry this) w trace None w'.
Proof.
  intros Hrun.
  destruct (loop_spec_total (generatorsToTry this) w) as (new & result & w0 & Hspec).
  pose proof (try_generators_meets_spec _ _ _ _ _ Hspec None []) as Heq.
  unfold generate in Hrun. rewrite Heq in Hrun.
  destruct result as [r|]; [discriminate|].
  injection Hrun as _ <- <-. exact Hspec.
Qed.

(** C5: when every candidate has been tried without a successful generation
    -- each one asked [isAvailable()] in turn, each available one asked to
    [generate], every such call answering false or throwing -- [generate]
    throws the error thrown last by a candidate, and when no candidate threw
    (none was available at all) the generic error with message
    "No available music generators". *)
Theorem exhausted_throws_last_error (this : MusicGeneratorManager)
    (w w' : World) (trace : list attempt) :
  loop_spec heap description onProgress (generatorsToTry this) w trace None w' ->
  generate heap description onProgress this w
  = (inl (default no_generator_error (last (recorded_errors trace))), w', trace)
  /\ map attempt_generator trace = generatorsToTry this
  /\ failed_only trace = true
  /\ (recorded_errors trace = [] ->
      generate heap description onProgress this w
      = (inl no_generator_error, w', trace)
      /\ message no_generator_error = "No available music generators").
Proof.
  intros Hspec.
  pose proof (try_generators_meets_spec _ _ _ _ _ Hspec None []) as Hrun.
  destruct (loop_spec_exhausted _ _ _ _ _ Hspec eq_refl) as [Hmap Hfailed].
  unfold generate. rewrite Hrun. simpl.
  split; [done|]. split; [exact Hmap|]. split; [exact Hfailed|].
  intros Hnone. by rewrite Hnone.
Qed.

End WithHeap.

Lemma fallback_reaches_third_witness :
  generate example_heap "calm piano" tt example_manager []
  = (inr "/audio/c.wav",
     ["A.isAvailable"; "B.isAvailable"; "B.generate"; "C.isAvailable"; "C.generate"],
     [Skipped 0%nat; Failed 1%nat (mkError "B failed"); Succeeded 2%nat]).
Proof.
  apply (fallback_reaches_third example_heap "calm piano" tt example_manager
           0%nat 1%nat 2%nat
           [] ["A.isAvailable"] ["A.isAvailable"; "B.isAvailable"]
           ["A.isAvailable"; "B.isAvailable"; "B.generate"]
           ["A.isAvailable"; "B.isAvailable"; "B.generate"; "C.isAvailable"]);
    (reflexivity || lia).
Defined.

(** Three candidates, none succeeding: the first throws from [generate],
    the second from [isAvailable], the third is unavailable.  The error
    thrown is the second one's. *)
Lemma exhausted_throws_last_error_witness :
  generate failing_heap "calm piano" tt example_manager []
  = (inl (mkError "second broke"),
     ["first.isAvailable"; "first.generate"; "second.isAvailable"; "third.isAvailable"],
     [Failed 0%nat (mkError "first failed"); Failed 1%nat (mkError "second broke");
      Skipped 2%nat]).
Proof.
  refine (proj1 (exhausted_throws_last_error failing_heap "calm piano" tt
                   example_manager []
                   ["first.isAvailable"; "first.generate"; "second.isAvailable";
                    "third.isAvailable"]
                   [Failed 0%nat (mkError "first failed");
                    Failed 1%nat (mkError "second broke"); Skipped 2%nat] _)).
  eapply spec_generate_throws; [reflexivity | reflexivity |].
  eapply spec_check_throws; [reflexivity |].
  eapply spec_unavailable; [reflexivity |].
  apply spec_exhausted.
Defined.

End ManagerFacts.

(** ** The WAV encoder *)
Module WavFacts.
Import Wav.
Local Open Scope wav_scope.

(** *** Little-endian bytes *)

Lemma byte_of_div_mod (value : Z) (k : nat) :
  byte_of value k = (value / 2 ^ (8 * Z.of_nat k)) mod 256.
Proof.
  unfold byte_of. rewrite Z.shiftr_div_pow2 by lia.
  change 255 with (Z.ones 8). rewrite Z.land_ones by lia. reflexivity.
Qed.

Lemma byte_of_range (value : Z) (k : nat) : 0 <= byte_of value k < 256.
Proof. rewrite byte_of_div_mod. apply Z.mod_pos_bound. lia. Qed.

Lemma le_value_bytes_from (value : Z) (width k : nat) :
  le_value (map (byte_of value) (seq k width))
  = (value / 2 ^ (8 * Z.of_nat k)) mod 2 ^ (8 * Z.of_nat width).
Proof.
  revert k. induction width as [|width IH]; intros k.
  - simpl. by rewrite Z.mod_1_r.
  - cbn [seq map le_value]. rewrite IH, byte_of_div_mod.
    replace (8 * Z.of_nat (S width)) with (8 + 8 * Z.of_nat width) by lia.
    replace (8 * Z.of_nat (S k)) with (8 * Z.of_nat k + 8) by lia.
    rewrite !Z.pow_add_r by lia.
    rewrite <- Z.div_div by lia.
    change (2 ^ 8) with 256.
    rewrite Z.rem_mul_r by lia. reflexivity.
Qed.

(** Reading back [width] stored bytes gives the value modulo the field
    size. *)
Lemma le_value_le_bytes (width : nat) (value : Z) :
  le_value (le_bytes width value) = value mod 2 ^ (8 * Z.of_nat width).
Proof.
  unfold le_bytes. rewrite le_value_bytes_from. simpl. by rewrite Z.div_1_r.
Qed.

Lemma length_le_bytes (width : nat) (value : Z) :
  List.length (le_bytes width value) = width.
Proof. unfold le_bytes. by rewrite length_map, length_seq. Qed.

(** *** Writing into the view *)

Lemma store_fold (f : nat -> Z) (pre : list Z) (width : nat) :
  forall mid post,
    List.length mid = width ->
    fold_left (fun bytes k => <[(List.length pre + k)%nat := f k]> bytes)
              (seq 0 width) (pre ++ mid ++ post)
    = pre ++ map f (seq 0 width) ++ post.
Proof.
  induction width as [|width IH]; intros mid post Hlen.
  - by destruct mid.
  - destruct mid as [|x mid' _] using rev_ind; [done|].
    rewrite length_app in Hlen. simpl in Hlen.
    rewrite seq_S, fold_left_app, map_app. simpl.
    rewrite <- (app_assoc mid'), (IH mid' ([x] ++ post)) by lia.
    rewrite insert_app_r_alt by lia.
    rewrite insert_app_r_alt by (rewrite length_map, length_seq; lia).
    rewrite length_map, length_seq.
    replace (List.length pre + width - List.length pre - width)%nat with 0%nat by lia.
    by rewrite <- app_assoc.
Qed.

Lemma store_le_written (n width : nat) (out : list Z) (value : Z) (p : nat) :
  (List.length out + width <= n)%nat ->
  store_le width (List.length out) value
           (mkState (out ++ replicate (n - List.length out) 0) p)
  = Some (tt, mkState ((out ++ le_bytes width value)
                         ++ replicate (n - List.length (out ++ le_bytes width value)) 0) p).
Proof.
  intros Hfit. unfold store_le. cbn [view pos].
  rewrite decide_True by (rewrite length_app, length_replicate; lia).
  do 3 f_equal.
  replace (n - List.length out)%nat with (width + (n - List.length out - width))%nat by lia.
  rewrite replicate_add.
  rewrite store_fold by apply length_replicate.
  rewrite length_app, length_le_bytes, <- app_assoc.
  do 3 f_equal. lia.
Qed.

(** [view.setUintN(pos, value, true); pos += N/8] *)
Lemma write_field {A} (n width : nat) (out : list Z) (value : Z) (k : M A) :
  (List.length out + width <= n)%nat ->
  (p <- get_pos ;; store_le width p value ;; advance width ;; k) (written n out)
  = k (written n (out ++ le_bytes width value)).
Proof.
  intros Hfit. unfold bind, get_pos, advance, written.
  cbn beta iota delta [view pos].
  rewrite store_le_written by done. cbn [view pos].
  by rewrite length_app, length_le_bytes.
Qed.

(** [view.setUint8(pos++, code)] *)
Lemma write_char {A} (n : nat) (out : list Z) (code : Z) (k : M A) :
  (List.length out + 1 <= n)%nat ->
  (p <- get_pos ;; advance 1 ;; setUint8 p code ;; k) (written n out)
  = k (written n (out ++ le_bytes 1 code)).
Proof.
  intros Hfit. unfold bind, get_pos, advance, setUint8, written.
  cbn beta iota delta [view pos].
  rewrite store_le_written by done.
  by rewrite length_app, length_le_bytes.
Qed.

Lemma run_bind {A B} (m : M A) (k : A -> M B) (st st' : state) (a : A) :
  m st = Some (a, st') -> bind m k st = k a st'.
Proof. intros H. unfold bind. by rewrite H. Qed.

(** A loop whose body appends [bytes x] appends their concatenation. *)
Lemma for_each_written {A} (n : nat) (body : A -> M unit) (bytes : A -> list Z)
    (xs : list A) :
  (forall x out,
      (List.length out + List.length (bytes x) <= n)%nat ->
      body x (written n out) = Some (tt, written n (out ++ bytes x))) ->
  forall out,
    (List.length out + List.length (flat_map bytes xs) <= n)%nat ->
    for_each xs body (written n out)
    = Some (tt, written n (out ++ flat_map bytes xs)).
Proof.
  intros Hbody. induction xs as [|x xs IH]; intros out Hfit; simpl in *.
  - by rewrite app_nil_r.
  - rewrite length_app in Hfit.
    rewrite (run_bind _ _ _ _ _ (Hbody x out ltac:(lia))).
    rewrite IH by (rewrite length_app; lia).
    by rewrite app_assoc.
Qed.

Lemma length_flat_map_const {A} (f : A -> list Z) (m : nat) (l : list A) :
  (forall x, List.length (f x) = m) ->
  List.length (flat_map f l) = (List.length l * m)%nat.
Proof.
  intros Hf. induction l as [|x l IH]; simpl; [done|].
  by rewrite length_app, Hf, IH.
Qed.

Lemma write_string {A} (n : nat) (out : list Z) (str : string) (k : M A) :
  (List.length out + List.length (char_codes str) <= n)%nat ->
  (writeString str ;; k) (written n out)
  = k (written n (out ++ flat_map (le_bytes 1) (char_codes str))).
Proof.
  intros Hfit. unfold writeString.
  rewrite (run_bind _ _ _
             (written n (out ++ flat_map (le_bytes 1) (char_codes str))) tt);
    [done|].
  apply for_each_written.
  - intros code out' Hfit'. rewrite length_le_bytes in Hfit'.
    pose proof (write_char n out' code (ret tt) Hfit') as Hchar.
    unfold bind, get_pos, advance, setUint8, ret in *.
    cbn beta iota delta [view pos] in *.
    destruct (store_le 1 _ _ _) as [[[] st']|]; [|done].
    by injection Hchar as ->.
  - rewrite (length_flat_map_const _ 1) by apply length_le_bytes. lia.
Qed.

Lemma length_sample_bytes channels i c : List.length (sample_bytes channels i c) = 2%nat.
Proof. apply length_le_bytes. Qed.

Lemma length_frame_bytes channels nch i :
  List.length (frame_bytes channels nch i) = (nch * 2)%nat.
Proof.
  unfold frame_bytes.
  rewrite (length_flat_map_const _ 2) by apply length_sample_bytes.
  by rewrite length_seq.
Qed.

Lemma write_sample_written (n : nat) channels (i c : nat) (out : list Z) :
  (List.length out + 2 <= n)%nat ->
  write_sample channels i c (written n out)
  = Some (tt, written n (out ++ sample_bytes channels i c)).
Proof.
  intros Hfit. unfold write_sample, setInt16, sample_bytes.
  fold (scaled (read_sample channels c i)).
  unfold bind, get_pos, advance, written. cbn beta iota delta [view pos].
  rewrite store_le_written by done. cbn [view pos].
  by rewrite length_app, length_le_bytes.
Qed.

(** The two nested sample loops. *)
Lemma write_frames (n : nat) channels (len nch : nat) (out : list Z) :
  (List.length out + len * (nch * 2) <= n)%nat ->
  for_each (seq 0 len) (fun i =>
    for_each (seq 0 nch) (fun channel => write_sample channels i channel))
    (written n out)
  = Some (tt, written n (out ++ flat_map (frame_bytes channels nch) (seq 0 len))).
Proof.
  intros Hfit. apply for_each_written.
  - intros i out' Hfit'. apply for_each_written; [|done].
    intros c out'' Hfit''. rewrite length_sample_bytes in Hfit''.
    by apply write_sample_written.
  - rewrite (length_flat_map_const _ (nch * 2)) by apply length_frame_bytes.
    by rewrite length_seq.
Qed.

(** On a consistent buffer the first loop collects the channel arrays and
    leaves the view alone. *)
Lemma collect_channels_run (buffer : AudioBuffer) (st : state) (m : nat) :
  forall k acc,
    (k + m <= numberOfChannels buffer)%nat ->
    List.length (channelData buffer) = numberOfChannels buffer ->
    collect_channels buffer (seq k m) acc st
    = Some (acc ++ take m (drop k (channelData buffer)), st).
Proof.
  induction m as [|m IH]; intros k acc Hk Hlen; simpl.
  - by rewrite app_nil_r.
  - destruct (lookup_lt_is_Some_2 (channelData buffer) k ltac:(lia)) as [data Hdata].
    unfold getChannelData. rewrite Hdata, decide_True by lia.
    unfold bind at 1, ret. rewrite IH by lia.
    rewrite <- app_assoc. do 3 f_equal.
    rewrite (drop_S _ _ _ Hdata). reflexivity.
Qed.

Lemma length_header_bytes (buffer : AudioBuffer) :
  List.length (header_bytes buffer) = 44%nat.
Proof. reflexivity. Qed.

Lemma length_wav_bytes (buffer : AudioBuffer) :
  List.length (wav_bytes buffer)
  = (44 + length buffer * numberOfChannels buffer * 2)%nat.
Proof.
  unfold wav_bytes. rewrite length_app, length_header_bytes.
  rewrite (length_flat_map_const _ (numberOfChannels buffer * 2))
    by apply length_frame_bytes.
  rewrite length_seq. lia.
Qed.

(** The writes of [audioBufferToWav] produce [wav_bytes], and no write
    leaves the buffer. *)
Lemma audioBufferToWav_bytes (buffer : AudioBuffer) :
  List.length (channelData buffer) = numberOfChannels buffer ->
  audioBufferToWav buffer = Some (wav_bytes buffer).
Proof.
  intros Hchannels. unfold audioBufferToWav, wav_body.
  set (n := (44 + length buffer * numberOfChannels buffer * 2)%nat).
  change (mkState (replicate n 0) 0) with (written n []).
  fold (data_bytes buffer). unfold setUint32, setUint16.
  rewrite (write_string n) by (rewrite ?length_app, ?length_le_bytes; unfold n; simpl; lia).
  rewrite (write_field n) by (rewrite ?length_app, ?length_le_bytes; unfold n; simpl; lia).
  rewrite (write_string n) by (rewrite ?length_app, ?length_le_bytes; unfold n; simpl; lia).
  rewrite (write_string n) by (rewrite ?length_app, ?length_le_bytes; unfold n; simpl; lia).
  do 7 rewrite (write_field n) by (rewrite ?length_app, ?length_le_bytes; unfold n; simpl; lia).
  rewrite (write_string n) by (rewrite ?length_app, ?length_le_bytes; unfold n; simpl; lia).
  rewrite (write_field n) by (rewrite ?length_app, ?length_le_bytes; unfold n; simpl; lia).
  rewrite (run_bind _ _ _ _ _
             (collect_channels_run buffer _ (numberOfChannels buffer) 0 []
                ltac:(lia) Hchannels)).
  rewrite drop_0, take_ge by lia. rewrite app_nil_l.
  rewrite (write_frames n) by (rewrite ?length_app, ?length_le_bytes; unfold n; simpl; lia).
  f_equal. unfold written. cbn [view].
  match goal with
  | |- ?bytes ++ replicate ?k 0 = _ =>
      assert (Hbytes : bytes = wav_bytes buffer);
      [ unfold wav_bytes, header_bytes; rewrite <- !app_assoc; reflexivity
      | rewrite Hbytes, length_wav_bytes ]
  end.
  subst n. rewrite Nat.sub_diag. apply app_nil_r.
Qed.

(** *** Finding a field in the byte sequence *)

Lemma slice_app_r (pre rest : list Z) (k width : nat) :
  slice (List.length pre + k) width (pre ++ rest) = slice k width rest.
Proof. unfold slice. by rewrite drop_app_add'. Qed.

Lemma slice_app_l (l rest : list Z) (j width : nat) :
  (j + width <= List.length l)%nat ->
  slice j width (l ++ rest) = slice j width l.
Proof.
  intros Hfit. unfold slice.
  rewrite drop_app_le by lia. apply take_app_le. rewrite length_drop. lia.
Qed.

(** In a concatenation of blocks of [m] bytes, block [i] starts at byte
    [i * m]. *)
Lemma slice_flat_map {A} (f : A -> list Z) (m : nat) (l : list A) :
  (forall y, List.length (f y) = m) ->
  forall i x j width,
    l !! i = Some x ->
    (j + width <= m)%nat ->
    slice (i * m + j) width (flat_map f l) = slice j width (f x).
Proof.
  intros Hf. induction l as [|y l IH]; intros i x j width Hi Hfit; [done|].
  destruct i as [|i]; simpl in *.
  - injection Hi as ->. apply slice_app_l. by rewrite Hf.
  - rewrite <- (Hf y), <- Nat.add_assoc, slice_app_r, (Hf y). by apply IH.
Qed.

(** *** Sample conversion *)

Lemma Qlt_bool_true (a b : Q) : Qlt_bool a b = true <-> (a < b)%Q.
Proof.
  unfold Qlt_bool. rewrite negb_true_iff, <- not_true_iff_false, Qle_bool_iff.
  split; [apply Qnot_le_lt | apply Qlt_not_le].
Qed.

Lemma Qlt_bool_false (a b : Q) : Qlt_bool a b = false <-> (b <= a)%Q.
Proof. unfold Qlt_bool. by rewrite negb_false_iff, Qle_bool_iff. Qed.

(** Case analysis on a comparison, with the order fact in the context. *)
Ltac compare a b :=
  let H := fresh "Hcmp" in
  destruct (Qlt_bool a b) eqn:H;
  [apply Qlt_bool_true in H | apply Qlt_bool_false in H].

Lemma truncate_comp (a b : Q) : (a == b)%Q -> truncate a = truncate b.
Proof.
  intros Heq. unfold truncate.
  compare a 0%Q; compare b 0%Q; try (exfalso; lra).
  - f_equal. apply Qfloor_comp. lra.
  - by apply Qfloor_comp.
Qed.

Lemma quantize_comp (a b : Q) : (a == b)%Q -> quantize a = quantize b.
Proof.
  intros Heq. unfold quantize.
  compare a 0%Q; compare b 0%Q; try (exfalso; lra);
    apply truncate_comp; lra.
Qed.

Lemma quantize_range (c : Q) :
  (-1 <= c)%Q -> (c <= 1)%Q -> -32768 <= quantize c <= 32767.
Proof.
  intros Hlo Hhi. unfold quantize, truncate.
  compare c 0%Q.
  - compare (c * 32768)%Q 0%Q; [|exfalso; lra].
    assert (H0 : (inject_Z 0 <= - (c * 32768))%Q)
      by (change (inject_Z 0) with 0%Q; lra).
    assert (H1 : (- (c * 32768) <= inject_Z 32768)%Q)
      by (change (inject_Z 32768) with 32768%Q; lra).
    apply Qfloor_resp_le in H0, H1. rewrite Qfloor_Z in H0, H1. lia.
  - compare (c * 32767)%Q 0%Q; [exfalso; lra|].
    assert (H0 : (inject_Z 0 <= c * 32767)%Q)
      by (change (inject_Z 0) with 0%Q; lra).
    assert (H1 : (c * 32767 <= inject_Z 32767)%Q)
      by (change (inject_Z 32767) with 32767%Q; lra).
    apply Qfloor_resp_le in H0, H1. rewrite Qfloor_Z in H0, H1. lia.
Qed.

Lemma clamp_range (q : Q) : (-1 <= clamp q)%Q /\ (clamp q <= 1)%Q.
Proof.
  unfold clamp. compare 1%Q q; [lra|]. compare q (-1)%Q; lra.
Qed.

(** A value of the signed 16-bit range survives the wrap of [ToInt16]. *)
Lemma wrap16_small (t : Z) :
  -32768 <= t <= 32767 ->
  (let int16bit := t mod 65536 in
   if 32768 <=? int16bit then int16bit - 65536 else int16bit) = t.
Proof.
  intros Ht. cbv zeta. destruct (Z_lt_dec t 0) as [Hneg|Hpos].
  - rewrite <- (Z_mod_plus_full t 1 65536), Z.mod_small by lia.
    destruct (Z.leb_spec 32768 (t + 1 * 65536)); lia.
  - rewrite Z.mod_small by lia. destruct (Z.leb_spec 32768 t); lia.
Qed.

(** The code's [Math.max(-1, Math.min(1, q))] on a finite sample. *)
Lemma code_clamp (q : Q) :
  exists c, Math_max (Finite (-1)) (Math_min (Finite 1) (Finite q)) = Finite c
            /\ (c == clamp q)%Q.
Proof.
  unfold Math_max, Math_min, clamp.
  compare q 1%Q.
  - compare (-1)%Q q.
    + exists q. split; [done|]. compare 1%Q q; [lra|]. compare q (-1)%Q; lra.
    + exists (-1)%Q. split; [done|]. compare 1%Q q; [lra|]. compare q (-1)%Q; lra.
  - compare (-1)%Q 1%Q; [|lra].
    exists 1%Q. split; [done|]. compare 1%Q q; [lra|]. compare q (-1)%Q; lra.
Qed.

(** What the encoder hands to [setInt16] is the quantised sample, and it
    lies in the signed 16-bit range. *)
Lemma ToInt16_scaled (x : number) :
  ToInt16 (scaled x) = pcm16 x /\ -32768 <= pcm16 x <= 32767.
Proof.
  destruct x as [|[|]|q];
    [vm_compute; split; [reflexivity | split; discriminate] ..|].
  change (pcm16 (Finite q)) with (quantize (clamp q)).
  destruct (clamp_range q) as [Hlo Hhi].
  split; [|by apply quantize_range].
  unfold scaled. destruct (code_clamp q) as (c & -> & Hc).
  rewrite <- (quantize_comp _ _ Hc).
  assert (Hrange : -32768 <= quantize c <= 32767).
  { rewrite (quantize_comp _ _ Hc). by apply quantize_range. }
  unfold quantize in *. cbn [lt_zero times].
  destruct (Qlt_bool c 0); cbn [ToInt16]; by apply wrap16_small.
Qed.


(** *** The claim *)




End WavFacts.

(* ===================================================================== *)
(** * Part III: further properties of the same code                       *)
(* ===================================================================== *)

(** ** The parameter extractor, pass by pass *)
Module ToneMore.
Import JsString JsStringFacts Tone ToneFacts.

Lemma set_tempo_id p : set_tempo (tempo p) p = p.
Proof. by destruct p. Qed.
Lemma set_scale_id p : set_scale (scale p) p = p.
Proof. by destruct p. Qed.
Lemma set_key_id p : set_key (key p) p = p.
Proof. by destruct p. Qed.
Lemma set_mood_id p : set_mood (mood p) p = p.
Proof. by destruct p. Qed.
Lemma set_duration_id p : set_duration (duration p) p = p.
Proof. by destruct p. Qed.
Lemma set_complexity_id p : set_complexity (complexity p) p = p.
Proof. by destruct p. Qed.
Lemma set_instruments_id p : set_instruments (instruments p) p = p.
Proof. by destruct p. Qed.

(** What each pass assigns, and to which fields. *)

Lemma tempo_detection_sets desc p :
  exists t, tempo_detection desc p = set_tempo t p
            /\ (t = tempo p \/ In t [60; 160; 100; 140]).
Proof.
  unfold tempo_detection.
  repeat (destruct (_ || _); [eexists; split; [reflexivity | simpl; tauto] |]).
  exists (tempo p). by rewrite set_tempo_id; auto.
Qed.

Lemma key_loop_sets desc ks p :
  exists k s, key_loop desc ks p = set_scale s (set_key k p)
              /\ (k = key p \/ In k (map toUpperCase ks))
              /\ (s = scale p \/ s = "minor").
Proof.
  induction ks as [|k0 ks IH].
  - exists (key p), (scale p). simpl. by rewrite set_key_id, set_scale_id; auto.
  - cbn [key_loop]. destruct (_ || _).
    + destruct (includes desc "minor").
      * exists (toUpperCase k0), "minor". simpl. auto.
      * exists (toUpperCase k0), (scale p). split; [by destruct p|]. simpl. auto.
    + destruct IH as (k & s & -> & Hk & Hs). exists k, s. split; [done|].
      split; [|done]. destruct Hk; [by left | right; by right].
Qed.

Lemma scale_detection_sets desc p :
  exists s, scale_detection desc p = set_scale s p
            /\ (s = scale p \/ s = "minor" \/ s = "major").
Proof.
  unfold scale_detection.
  repeat (destruct (includes _ _); [eexists; split; [reflexivity | tauto] |]).
  exists (scale p). by rewrite set_scale_id; auto.
Qed.

Lemma push_if_sets c n p :
  push_if c n p = set_instruments (instruments p ++ (if c then [n] else [])) p.
Proof. destruct c; [done|]. by rewrite app_nil_r, set_instruments_id. Qed.

Lemma instrument_detection_sets desc p :
  exists l, instrument_detection desc p = set_instruments l p.
Proof.
  unfold instrument_detection. rewrite !push_if_sets.
  destruct (_ =? _)%nat; eexists; reflexivity.
Qed.

Lemma mood_detection_sets desc p :
  exists t s m,
    mood_detection desc p = set_tempo t (set_scale s (set_mood m p))
    /\ ((m = mood p /\ s = scale p /\ t = tempo p)
        \/ (m = "happy" /\ s = "major" /\ t = tempo p)
        \/ (m = "sad" /\ s = "minor" /\ t = tempo p)
        \/ (m = "energetic" /\ s = scale p /\ t = Z.max (tempo p) 140)
        \/ (m = "calm" /\ s = scale p /\ t = Z.min (tempo p) 90)).
Proof.
  unfold mood_detection.
  destruct (_ || _).
  { exists (tempo p), "major", "happy". split; [by destruct p | tauto]. }
  destruct (_ || _).
  { exists (tempo p), "minor", "sad". split; [by destruct p | tauto]. }
  destruct (_ || _).
  { exists (Z.max (tempo p) 140), (scale p), "energetic".
    split; [by destruct p | tauto]. }
  destruct (_ || _).
  { exists (Z.min (tempo p) 90), (scale p), "calm".
    split; [by destruct p | tauto]. }
  exists (tempo p), (scale p), (mood p). split; [by destruct p | tauto].
Qed.

Lemma duration_detection_sets desc p :
  exists du, duration_detection desc p = set_duration du p
             /\ (du = duration p \/ du = 3%Q \/ du = 10%Q).
Proof.
  unfold duration_detection.
  repeat (destruct (includes _ _); [eexists; split; [reflexivity | tauto] |]).
  exists (duration p). by rewrite set_duration_id; auto.
Qed.

Lemma complexity_detection_sets desc p :
  exists c, complexity_detection desc p = set_complexity c p
            /\ (c = complexity p \/ c = "simple" \/ c = "complex").
Proof.
  unfold complexity_detection.
  repeat (destruct (_ || _); [eexists; split; [reflexivity | tauto] |]).
  exists (complexity p). by rewrite set_complexity_id; auto.
Qed.

(** The result as one record, each field with its possible values. *)
Lemma parse_shape (d : string) :
  exists t0 k s0 s1 l t s m du c,
    _parseDescription d = mkParams t k s l m du c
    /\ instruments (_parseDescription d) = l
    /\ (t0 = 120 \/ In t0 [60; 160; 100; 140])
    /\ (k = "C" \/ In k (map toUpperCase keys))
    /\ (s0 = "major" \/ s0 = "minor")
    /\ (s1 = s0 \/ s1 = "minor" \/ s1 = "major")
    /\ ((m = "neutral" /\ s = s1 /\ t = t0)
        \/ (m = "happy" /\ s = "major" /\ t = t0)
        \/ (m = "sad" /\ s = "minor" /\ t = t0)
        \/ (m = "energetic" /\ s = s1 /\ t = Z.max t0 140)
        \/ (m = "calm" /\ s = s1 /\ t = Z.min t0 90))
    /\ (du = 5%Q \/ du = 3%Q \/ du = 10%Q)
    /\ (c = "medium" \/ c = "simple" \/ c = "complex").
Proof.
  unfold _parseDescription, key_detection.
  destruct (tempo_detection_sets (toLowerCase d) initial_params) as (t0 & -> & Ht0).
  destruct (key_loop_sets (toLowerCase d) keys (set_tempo t0 initial_params))
    as (k & s0 & -> & Hk & Hs0).
  destruct (scale_detection_sets (toLowerCase d)
              (set_scale s0 (set_key k (set_tempo t0 initial_params))))
    as (s1 & -> & Hs1).
  destruct (instrument_detection_sets (toLowerCase d)
              (set_scale s1 (set_scale s0 (set_key k (set_tempo t0 initial_params)))))
    as (l & ->).
  destruct (mood_detection_sets (toLowerCase d)
              (set_instruments l (set_scale s1 (set_scale s0
                 (set_key k (set_tempo t0 initial_params))))))
    as (t & s & m & -> & Hm).
  destruct (duration_detection_sets (toLowerCase d)
              (set_tempo t (set_scale s (set_mood m (set_instruments l
                 (set_scale s1 (set_scale s0 (set_key k
                    (set_tempo t0 initial_params)))))))))
    as (du & -> & Hdu).
  destruct (complexity_detection_sets (toLowerCase d)
              (set_duration du (set_tempo t (set_scale s (set_mood m
                 (set_instruments l (set_scale s1 (set_scale s0 (set_key k
                    (set_tempo t0 initial_params))))))))))
    as (c & -> & Hc).
  exists t0, k, s0, s1, l, t, s, m, du, c.
  cbn in *. repeat split; try reflexivity; try assumption.
Qed.

Ltac in_list := simpl; repeat (try (left; reflexivity); right); fail.

(** X1: whatever the description, the extracted parameters are well formed:
    the tempo is one of 60, 90, 100, 120, 140, 160 (so never zero or
    negative), the key one of the seven letters, the scale major or minor,
    the mood one of five, the duration 3, 5 or 10 seconds, the complexity
    one of three. *)
Theorem parse_well_formed (d : string) :
  In (tempo (_parseDescription d)) [60; 90; 100; 120; 140; 160]
  /\ In (key (_parseDescription d)) ["C"; "D"; "E"; "F"; "G"; "A"; "B"]
  /\ In (scale (_parseDescription d)) ["major"; "minor"]
  /\ In (mood (_parseDescription d)) ["neutral"; "happy"; "sad"; "energetic"; "calm"]
  /\ In (duration (_parseDescription d)) [3%Q; 5%Q; 10%Q]
  /\ In (complexity (_parseDescription d)) ["simple"; "medium"; "complex"].
Proof.
  destruct (parse_shape d)
    as (t0 & k & s0 & s1 & l & t & s & m & du & c & -> & _ & Ht0 & Hk & Hs0 & Hs1
        & Hm & Hdu & Hc).
  cbn [tempo key scale mood duration complexity].
  change (map toUpperCase keys) with ["C"; "D"; "E"; "F"; "G"; "A"; "B"] in Hk.
  repeat split.
  - assert (Hin : In t0 [120; 60; 160; 100; 140]) by (destruct Ht0; [left | right]; done).
    clear Ht0. simpl in Hin.
    destruct Hm as [(_ & _ & ->) | [(_ & _ & ->) | [(_ & _ & ->)
                   | [(_ & _ & ->) | (_ & _ & ->)]]]];
      repeat (destruct Hin as [<- | Hin]; [in_list|]); done.
  - destruct Hk as [-> | Hk]; [in_list | done].
  - assert (Hs : s1 = "major" \/ s1 = "minor") by (destruct Hs0; subst; tauto).
    destruct Hm as [(_ & -> & _) | [(_ & -> & _) | [(_ & -> & _)
                   | [(_ & -> & _) | (_ & -> & _)]]]];
      try in_list; destruct Hs as [-> | ->]; in_list.
  - destruct Hm as [(-> & _) | [(-> & _) | [(-> & _) | [(-> & _) | (-> & _)]]]];
      in_list.
  - destruct Hdu as [-> | [-> | ->]]; in_list.
  - destruct Hc as [-> | [-> | ->]]; in_list.
Qed.

(** X2: the mood and the fields it overrides always agree: a happy result is
    in a major scale, a sad one in a minor scale, an energetic one has tempo
    140 or 160, a calm one tempo 60 or 90 -- whatever tempo or scale words
    the text holds. *)
Theorem mood_overrides (d : string) :
  (mood (_parseDescription d) = "happy" -> scale (_parseDescription d) = "major")
  /\ (mood (_parseDescription d) = "sad" -> scale (_parseDescription d) = "minor")
  /\ (mood (_parseDescription d) = "energetic" ->
      In (tempo (_parseDescription d)) [140; 160])
  /\ (mood (_parseDescription d) = "calm" ->
      In (tempo (_parseDescription d)) [60; 90]).
Proof.
  destruct (parse_shape d)
    as (t0 & k & s0 & s1 & l & t & s & m & du & c & -> & _ & Ht0 & _ & _ & _
        & Hm & _ & _).
  cbn [tempo scale mood].
  assert (Hin : In t0 [120; 60; 160; 100; 140]) by (destruct Ht0; [left | right]; done).
  clear Ht0. simpl in Hin.
  repeat split; intros ->;
    destruct Hm as [(Hmood & _ & ->) | [(Hmood & -> & ->) | [(Hmood & -> & ->)
                   | [(Hmood & _ & ->) | (Hmood & _ & ->)]]]];
    try discriminate; try reflexivity;
    repeat (destruct Hin as [<- | Hin]; [in_list|]); done.
Qed.

Lemma mood_overrides_witness :
  scale (_parseDescription "a happy tune in a minor key") = "major"
  /\ In (tempo (_parseDescription "slow but energetic")) [140; 160].
Proof.
  split.
  - apply (proj1 (mood_overrides "a happy tune in a minor key")). reflexivity.
  - apply (proj1 (proj2 (proj2 (mood_overrides "slow but energetic")))). reflexivity.
Defined.

Lemma instrument_detection_table desc p :
  instruments p = [] ->
  instruments (instrument_detection desc p)
  = match mentioned_instruments desc with
    | [] => ["piano"; "bass"]
    | name :: names => name :: names
    end.
Proof.
  intros Hnil. unfold instrument_detection, mentioned_instruments, instrument_table.
  rewrite !push_if_sets. cbn [instruments set_instruments]. rewrite Hnil.
  cbn [List.filter snd includes_any existsb]. rewrite !orb_false_r.
  destruct (includes desc "piano"), (includes desc "guitar"),
    (includes desc "drums" || includes desc "drum"), (includes desc "bass"),
    (includes desc "violin"), (includes desc "flute"), (includes desc "trumpet"),
    (includes desc "saxophone" || includes desc "sax"); reflexivity.
Qed.

Lemma parse_instruments_table (d : string) :
  instruments (_parseDescription d)
  = match mentioned_instruments (toLowerCase d) with
    | [] => ["piano"; "bass"]
    | name :: names => name :: names
    end.
Proof.
  rewrite parse_instruments. apply instrument_detection_table.
  unfold key_detection.
  by rewrite scale_detection_instruments, key_loop_instruments,
             tempo_detection_instruments.
Qed.

Lemma instruments_sublist (d : string) :
  sublist (instruments (_parseDescription d)) (map fst instrument_table).
Proof.
  rewrite parse_instruments_table.
  destruct (mentioned_instruments _) as [|name names] eqn:Hm.
  - unfold instrument_table. cbn [map fst].
    apply sublist_skip, sublist_cons, sublist_cons, sublist_skip, sublist_nil_l.
  - rewrite <- Hm. unfold mentioned_instruments. clear Hm.
    induction instrument_table as [|e t IH]; simpl; [constructor|].
    destruct (includes_any _ _); simpl; by constructor.
Qed.

(** X3: the instruments list is exactly the names of the instrument table
    whose keywords occur in the text, in table order (not in the order of
    the text), or [piano, bass] when none occurs; so it never names an
    instrument twice and never an instrument outside the eight of the table. *)
Theorem instruments_from_table (d : string) :
  instruments (_parseDescription d)
  = match mentioned_instruments (toLowerCase d) with
    | [] => ["piano"; "bass"]
    | name :: names => name :: names
    end
  /\ sublist (instruments (_parseDescription d)) (map fst instrument_table)
  /\ NoDup (instruments (_parseDescription d)).
Proof.
  split; [apply parse_instruments_table|].
  split; [apply instruments_sublist|].
  eapply sublist_NoDup; [|apply instruments_sublist].
  apply (bool_decide_unpack _). vm_compute. exact I.
Qed.




Lemma key_loop_scale_no_minor desc ks p :
  includes desc "minor" = false -> scale (key_loop desc ks p) = scale p.
Proof.
  intros Hminor. induction ks as [|k ks IH]; [done|].
  cbn [key_loop]. rewrite Hminor. by destruct (_ || _).
Qed.

(** X5: the extracted scale is minor exactly when no happy-class keyword
    occurs and either a sad-class keyword or the word "minor" does; in every
    other case it is major.  The word "major" never changes the result. *)
Theorem scale_decision (d : string) :
  scale (_parseDescription d)
  = if includes_any (toLowerCase d) happy_keywords then "major"
    else if includes_any (toLowerCase d) sad_keywords then "minor"
    else if includes (toLowerCase d) "minor" then "minor"
    else "major".
Proof.
  rewrite parse_scale. unfold mood_detection, includes_any, happy_keywords, sad_keywords.
  cbn [existsb]. rewrite !orb_false_r, !orb_assoc.
  destruct (_ || _); [done|]. destruct (_ || _); [done|].
  assert (Hscale : scale (instrument_detection (toLowerCase d)
             (scale_detection (toLowerCase d)
                (key_detection (toLowerCase d)
                   (tempo_detection (toLowerCase d) initial_params))))
           = if includes (toLowerCase d) "minor" then "minor" else "major").
  { rewrite instrument_detection_scale. unfold scale_detection, key_detection.
    destruct (includes (toLowerCase d) "minor") eqn:Hminor; [done|].
    assert (Hk : scale (key_loop (toLowerCase d) keys
                          (tempo_detection (toLowerCase d) initial_params)) = "major").
    { rewrite key_loop_scale_no_minor by done.
      by destruct (tempo_detection_sets (toLowerCase d) initial_params) as (t & -> & _). }
    by destruct (includes (toLowerCase d) "major"). }
  by repeat destruct (_ || _).
Qed.

Lemma parse_key_scale (d : string) :
  In (key (_parseDescription d)) ["C"; "D"; "E"; "F"; "G"; "A"; "B"]
  /\ In (scale (_parseDescription d)) ["major"; "minor"].
Proof.
  destruct (parse_shape d)
    as (t0 & k & s0 & s1 & l & t & s & m & du & c & -> & _ & _ & Hk & Hs0 & Hs1
        & Hm & _ & _).
  cbn [key scale].
  change (map toUpperCase keys) with ["C"; "D"; "E"; "F"; "G"; "A"; "B"] in Hk.
  split.
  - destruct Hk as [-> | Hk]; [in_list | done].
  - assert (Hs : s1 = "major" \/ s1 = "minor") by (destruct Hs0; subst; tauto).
    destruct Hm as [(_ & -> & _) | [(_ & -> & _) | [(_ & -> & _)
                   | [(_ & -> & _) | (_ & -> & _)]]]];
      try in_list; destruct Hs as [-> | ->]; in_list.
Qed.

(** X6: whatever the description, the notes handed to the synths are the
    names of seven strictly ascending MIDI pitches that start at a base pitch
    between 60 and 71 and stay within the octave above it (so within 60..82). *)
Theorem notes_within_one_octave (toNote : Z -> string) (d : string) :
  exists base midi,
    _generateNotes toNote (_parseDescription d) = map toNote (base :: midi)
    /\ List.length (base :: midi) = 7%nat
    /\ 60 <= base <= 71
    /\ StronglySorted Z.lt (base :: midi)
    /\ Forall (fun m => base < m < base + 12) midi.
Proof.
  destruct (parse_key_scale d) as [Hkey Hscale].
  unfold _generateNotes.
  remember (key (_parseDescription d)) as k eqn:Hk.
  remember (scale (_parseDescription d)) as s eqn:Hs.
  clear Hk Hs. simpl in Hkey, Hscale.
  destruct Hscale as [<- | [<- | []]];
    destruct Hkey as [<- | [<- | [<- | [<- | [<- | [<- | [<- | []]]]]]]];
    match goal with
    | |- context [map _ (if ?c then _ else _)] =>
        match goal with
        | |- context [key_offset ?k] =>
            exists (60 + key_offset k),
              (map (Z.add (60 + key_offset k))
                   (tl (if c then majorIntervals else minorIntervals)))
        end
    end;
    vm_compute; repeat first [reflexivity | discriminate | constructor].
Qed.

Lemma sublist_In {A} (l k : list A) (x : A) : sublist l k -> In x l -> In x k.
Proof.
  induction 1 as [|y l k _ IH|y l k _ IH]; simpl; [done| |]; intuition.
Qed.

(** X7: every instrument name the parser can put into the list has its own
    case in [_createInstrument]: the default branch is never taken for
    parsed parameters. *)
Theorem parsed_instruments_have_presets (d name : string) :
  In name (instruments (_parseDescription d)) ->
  _createInstrument name <> DefaultPolySynth.
Proof.
  intros Hin.
  assert (Hname : In name (map fst instrument_table)).
  { eapply sublist_In; [apply instruments_sublist | exact Hin]. }
  simpl in Hname.
  repeat (destruct Hname as [<- | Hname]; [vm_compute; discriminate|]).
  destruct Hname.
Qed.

Lemma parsed_instruments_have_presets_witness :
  _createInstrument "bass" <> DefaultPolySynth.
Proof.
  apply (parsed_instruments_have_presets "smooth jazz"). vm_compute. tauto.
Defined.

(** *** The scheduling loop *)

Lemma lookup_flat_map_const {A B} (f : A -> list B) (m : nat) (l : list A) :
  (forall y, List.length (f y) = m) ->
  forall i x j,
    l !! i = Some x -> (j < m)%nat ->
    flat_map f l !! (i * m + j)%nat = f x !! j.
Proof.
  intros Hf. induction l as [|y l IH]; intros i x j Hi Hj; [done|].
  destruct i as [|i]; simpl in *.
  - injection Hi as ->. apply lookup_app_l. by rewrite Hf.
  - rewrite lookup_app_r by (rewrite Hf; lia). rewrite Hf.
    replace (m + i * m + j - m)%nat with (i * m + j)%nat by lia. by apply IH.
Qed.

Lemma filter_all {A} (p : A -> bool) (l : list A) :
  Forall (fun x => p x = true) l -> List.filter p l = l.
Proof. induction 1 as [|x l Hx _ IH]; simpl; [done|]. by rewrite Hx, IH. Qed.

Section ScheduleFacts.
Context {Time Velocity : Type}.
Variable time_of_beat : nat -> Time.
Variable note_length : Time.
Variable _getVelocity : nat -> nat -> Velocity.
Variable progress_of_beat : nat -> Z.
Variable onProgress : bool.
Variable notes : list string.
Variable instruments : list instrument.
Variable totalBeats : nat.

Local Abbreviation from beat noteIndex instIndex synths :=
  (trigger_from time_of_beat note_length _getVelocity notes beat noteIndex
                instIndex synths).
Local Abbreviation triggers beat noteIndex :=
  (trigger_all time_of_beat note_length _getVelocity notes instruments beat noteIndex).
Local Abbreviation loop beats noteIndex :=
  (beat_loop time_of_beat note_length _getVelocity progress_of_beat onProgress
             notes instruments totalBeats beats noteIndex).

(** When every object has the method, [forEach] runs to its end. *)
Lemma trigger_from_all (beat noteIndex : nat) (synths : list instrument) :
  forallb has_triggerAttackRelease synths = true ->
  forall instIndex,
    snd (from beat noteIndex instIndex synths) = false
    /\ List.length (fst (from beat noteIndex instIndex synths)) = List.length synths
    /\ Forall (fun c => is_trigger c = true) (fst (from beat noteIndex instIndex synths))
    /\ forall j synth,
         synths !! j = Some synth ->
         fst (from beat noteIndex instIndex synths) !! j
         = Some (TriggerAttackRelease (instIndex + j)
                   (notes !! ((noteIndex + (instIndex + j)) mod List.length notes)%nat)
                   note_length (time_of_beat beat) (_getVelocity beat (instIndex + j))).
Proof.
  induction synths as [|synth0 rest IH]; intros Hall instIndex; simpl in *.
  - repeat split; [constructor | done].
  - apply andb_true_iff in Hall as [Hhas Hall]. rewrite Hhas.
    destruct (IH Hall (S instIndex)) as (Hthrown & Hlen & Htrig & Hlookup).
    destruct (from beat noteIndex (S instIndex) rest) as [calls thrown].
    simpl in *. repeat split; [done | by rewrite Hlen | by constructor |].
    intros [|j] synth Hj; simpl.
    + by rewrite Nat.add_0_r.
    + replace (instIndex + S j)%nat with (S instIndex + j)%nat by lia.
      exact (Hlookup j synth Hj).
Qed.

(** An object without the method stops [forEach] before its end. *)
Lemma trigger_from_throws (beat noteIndex : nat) (synths : list instrument) :
  existsb (fun synth => negb (has_triggerAttackRelease synth)) synths = true ->
  forall instIndex,
    snd (from beat noteIndex instIndex synths) = true
    /\ (List.length (fst (from beat noteIndex instIndex synths)) < List.length synths)%nat.
Proof.
  induction synths as [|synth0 rest IH]; intros Hsome instIndex; simpl in *;
    [discriminate|].
  destruct (has_triggerAttackRelease synth0); simpl in *.
  - destruct (IH Hsome (S instIndex)) as [Hthrown Hlen].
    destruct (from beat noteIndex (S instIndex) rest) as [calls thrown].
    simpl in *. split; [done | lia].
  - split; [done | lia].
Qed.

(** The loop invariant: [noteIndex] is the beat number times the number of
    instruments. *)
Lemma beat_loop_triggers (m : nat) :
  forallb has_triggerAttackRelease instruments = true ->
  forall b,
    snd (loop (seq b m) (b * List.length instruments)%nat) = false
    /\ List.filter is_trigger (fst (loop (seq b m) (b * List.length instruments)%nat))
       = flat_map (fun beat =>
                     fst (triggers beat (beat * List.length instruments)%nat))
                  (seq b m).
Proof.
  intros Hall. induction m as [|m IH]; intros b; [done|].
  cbn [seq beat_loop flat_map]. unfold trigger_all at 1 2.
  destruct (trigger_from_all b (b * List.length instruments) instruments Hall 0)
    as (Hthrown & _ & Htrig & _).
  unfold trigger_all.
  destruct (from b (b * List.length instruments)%nat 0%nat instruments)
    as [calls thrown].
  simpl in Hthrown, Htrig. subst thrown.
  replace (b * List.length instruments + List.length instruments)%nat
    with (S b * List.length instruments)%nat by lia.
  destruct (IH (S b)) as [Hlater Hfilter].
  destruct (loop (seq (S b) m) (S b * List.length instruments)%nat)
    as [later thrown_later].
  simpl in *. split; [done|].
  rewrite !List.filter_app, (filter_all _ _ Htrig), Hfilter.
  by destruct (_ && _).
Qed.

(** X8: when every instrument object has a [triggerAttackRelease] method
    (all but the [Tone.Noise] built for drums do), the scheduling loop runs
    to its end and triggers every instrument once per beat, beat after beat
    and in instrument order ([totalBeats * instruments.length] calls in
    all); the call for instrument [i] at beat [beat] plays
    [notes[(beat * instruments.length + i) % notes.length]] at that beat's
    time: the voices walk up the scale in turn, wrapping around its end. *)
Theorem schedule_rotation (beat i : nat) (synth : instrument) :
  forallb has_triggerAttackRelease instruments = true ->
  (beat < totalBeats)%nat ->
  instruments !! i = Some synth ->
  snd (schedule time_of_beat note_length _getVelocity progress_of_beat onProgress
                notes instruments totalBeats) = false
  /\ List.filter is_trigger
       (fst (schedule time_of_beat note_length _getVelocity progress_of_beat
                      onProgress notes instruments totalBeats))
       !! (beat * List.length instruments + i)%nat
     = Some (TriggerAttackRelease i
               (notes !! ((beat * List.length instruments + i) mod List.length notes)%nat)
               note_length (time_of_beat beat) (_getVelocity beat i))
  /\ List.length
       (List.filter is_trigger
          (fst (schedule time_of_beat note_length _getVelocity progress_of_beat
                         onProgress notes instruments totalBeats)))
     = (totalBeats * List.length instruments)%nat.
Proof.
  intros Hall Hbeat Hi. unfold schedule.
  destruct (beat_loop_triggers totalBeats Hall 0) as [Hthrown Hloop].
  simpl in Hthrown, Hloop. split; [exact Hthrown|]. rewrite Hloop.
  assert (Hlen : forall y, List.length (fst (triggers y (y * List.length instruments)%nat))
                           = List.length instruments).
  { intros y. unfold trigger_all.
    by destruct (trigger_from_all y (y * List.length instruments) instruments Hall 0)
      as (_ & Hl & _). }
  split.
  - rewrite (lookup_flat_map_const _ (List.length instruments) _ Hlen beat beat i).
    + unfold trigger_all.
      destruct (trigger_from_all beat (beat * List.length instruments) instruments
                  Hall 0) as (_ & _ & _ & Hlookup).
      by rewrite (Hlookup i synth Hi).
    + by apply lookup_seq_lt.
    + by eapply lookup_lt_Some.
  - clear Hloop Hbeat Hthrown. generalize 0%nat.
    induction totalBeats as [|n IH]; intros b; [done|].
    cbn [seq flat_map]. rewrite length_app, Hlen, IH. lia.
Qed.

(** The loop stops in its first beat when some object lacks the method. *)
Lemma schedule_throws :
  existsb (fun synth => negb (has_triggerAttackRelease synth)) instruments = true ->
  (0 < totalBeats)%nat ->
  snd (schedule time_of_beat note_length _getVelocity progress_of_beat onProgress
                notes instruments totalBeats) = true
  /\ (List.length
        (fst (schedule time_of_beat note_length _getVelocity progress_of_beat
                       onProgress notes instruments totalBeats))
      < List.length instruments)%nat.
Proof.
  intros Hsome Hbeats. unfold schedule.
  destruct totalBeats as [|m] eqn:Htotal; [lia|].
  cbn [seq beat_loop]. unfold trigger_all.
  destruct (trigger_from_throws 0 0 instruments Hsome 0) as [Hthrown Hlen].
  destruct (from 0%nat 0%nat 0%nat instruments) as [calls thrown].
  simpl in *. by subst thrown.
Qed.

End ScheduleFacts.

Lemma schedule_rotation_witness :
  List.filter is_trigger
    (fst (schedule (fun beat => beat) 0%nat (fun _ _ => tt) (fun _ => 50) true
                   ["C4"; "D4"; "E4"; "F4"; "G4"; "A4"; "B4"]
                   [_createInstrument "piano"; _createInstrument "bass"] 8))
    !! 7%nat
  = Some (TriggerAttackRelease 1 (Some "C4") 0%nat 3%nat tt).
Proof.
  exact (proj1 (proj2 (schedule_rotation (fun beat => beat) 0%nat (fun _ _ => tt)
                  (fun _ => 50) true
                  ["C4"; "D4"; "E4"; "F4"; "G4"; "A4"; "B4"]
                  [_createInstrument "piano"; _createInstrument "bass"] 8
                  3 1 (_createInstrument "bass") eq_refl ltac:(lia) eq_refl))).
Defined.

(** X25: a description that mentions drums ("drum" occurs in its lowercased
    text) cannot be scheduled: the object built for "drums" is a [Tone.Noise]
    without [triggerAttackRelease], so the loop throws during its first beat,
    before one full round of the instruments, and [_generateMusic] rejects. *)
Theorem drums_stop_the_schedule {Time Velocity : Type}
    (time_of_beat : nat -> Time) (note_length : Time)
    (_getVelocity : nat -> nat -> Velocity) (progress_of_beat : nat -> Z)
    (onProgress : bool) (toNote : Z -> string) (totalBeats : nat) (d : string) :
  includes (toLowerCase d) "drum" = true ->
  (0 < totalBeats)%nat ->
  In (Noise "pink" (-10)) (create_instruments (_parseDescription d))
  /\ snd (schedule time_of_beat note_length _getVelocity progress_of_beat onProgress
                   (_generateNotes toNote (_parseDescription d))
                   (create_instruments (_parseDescription d)) totalBeats) = true
  /\ (List.length
        (fst (schedule time_of_beat note_length _getVelocity progress_of_beat
                       onProgress (_generateNotes toNote (_parseDescription d))
                       (create_instruments (_parseDescription d)) totalBeats))
      < List.length (create_instruments (_parseDescription d)))%nat.
Proof.
  intros Hdrum Hbeats.
  assert (Hin : In "drums" (instruments (_parseDescription d))).
  { rewrite parse_instruments_table.
    assert (Hm : In "drums" (mentioned_instruments (toLowerCase d))).
    { unfold mentioned_instruments. apply in_map_iff.
      exists ("drums", ["drums"; "drum"]). split; [done|].
      apply filter_In. split; [simpl; tauto|].
      simpl. rewrite Hdrum. by rewrite !orb_true_r. }
    by destruct (mentioned_instruments (toLowerCase d)). }
  assert (Hnoise : In (Noise "pink" (-10)) (create_instruments (_parseDescription d))).
  { unfold create_instruments. apply in_map_iff. by exists "drums". }
  split; [exact Hnoise|].
  apply schedule_throws; [|done].
  apply existsb_exists. by exists (Noise "pink" (-10)).
Qed.

Lemma drums_stop_the_schedule_witness :
  snd (schedule (fun beat => beat) 0%nat (fun _ _ => tt) (fun _ => 50) true
                (_generateNotes (fun _ => "note") (_parseDescription "piano and drums"))
                (create_instruments (_parseDescription "piano and drums")) 6) = true.
Proof.
  apply (proj1 (proj2 (drums_stop_the_schedule (fun beat => beat) 0%nat
                         (fun _ _ => tt) (fun _ => 50) true (fun _ => "note") 6
                         "piano and drums" eq_refl ltac:(lia)))).
Defined.

End ToneMore.

(** ** The manager: registration, selection and the fallback loop *)
Module ManagerMore.
Import Manager ManagerFacts.

Lemma registerGenerator_invariant g isDefault this :
  registered_invariant this -> registered_invariant (registerGenerator g isDefault this).
Proof.
  destruct this as [gens cur fb]. unfold registered_invariant, registerGenerator.
  cbn [generators currentGenerator fallbackGenerator].
  intros [-> Hcur].
  destruct gens as [|x gens].
  - destruct cur as [c|]; [by destruct Hcur|].
    rewrite orb_true_r. simpl. split; [done | by left].
  - simpl. destruct cur as [c|]; simpl.
    + destruct isDefault; simpl; split; try done.
      * right. apply in_or_app. right. by left.
      * destruct Hcur as [-> | Hin]; [by left | right]. apply in_or_app. by left.
    + discriminate.
Qed.

Section WithHeap.
Context {World Result Progress : Type}.
Variable heap : ref -> MusicGenerator.t World Result Progress.
Variable description : string.
Variable onProgress : Progress.

Lemma setGenerator_invariant name this :
  registered_invariant this ->
  registered_invariant (snd (setGenerator heap name this)).
Proof.
  intros [Hfb Hcur]. unfold setGenerator.
  destruct (List.find _ _) as [g|] eqn:Hfind; [|by split].
  apply find_some in Hfind as [Hin _]. by split.
Qed.

Lemma after_calls_invariant (calls : list method_call) :
  forall this,
    registered_invariant this ->
    registered_invariant (fold_left (apply_call heap) calls this).
Proof.
  induction calls as [|c calls IH]; intros this Hinv; [done|].
  apply IH. destruct c as [g isDefault | name]; simpl.
  - by apply registerGenerator_invariant.
  - by apply setGenerator_invariant.
Qed.

(** X12: after any sequence of [registerGenerator] and [setGenerator] calls
    on a new manager, the fallback generator is the one registered first,
    the current generator is a registered generator (and null only while
    nothing is registered), and [getCurrentGenerator()] returns the current
    generator: its [|| this.fallbackGenerator] branch never supplies a
    different object. *)
Theorem fields_after_calls (calls : list method_call) :
  fallbackGenerator (after_calls heap calls) = head (generators (after_calls heap calls))
  /\ match currentGenerator (after_calls heap calls) with
     | Some g => In g (generators (after_calls heap calls))
     | None => generators (after_calls heap calls) = []
     end
  /\ getCurrentGenerator (after_calls heap calls)
     = currentGenerator (after_calls heap calls).
Proof.
  assert (Hinv : registered_invariant (after_calls heap calls)).
  { apply after_calls_invariant. by split. }
  destruct Hinv as [Hfb Hcur]. split; [exact Hfb|]. split; [exact Hcur|].
  unfold getCurrentGenerator.
  destruct (currentGenerator _); [done|]. by rewrite Hfb, Hcur.
Qed.

(** X13: when the selected generator is available and its [generate]
    succeeds, the manager returns that result and touches no other
    generator: the loop makes exactly these two calls. *)
Theorem selected_generator_first (this : MusicGeneratorManager) (g : ref)
    (w w1 w2 : World) (result : Result) :
  currentGenerator this = Some g ->
  MusicGenerator.isAvailable (heap g) w = (inr true, w1) ->
  MusicGenerator.generate (heap g) description onProgress w1 = (inr result, w2) ->
  generate heap description onProgress this w = (inr result, w2, [Succeeded g]).
Proof.
  intros Hcur Havail Hgen. unfold generate.
  rewrite generatorsToTry_unfold, Hcur. simpl. by rewrite Havail, Hgen.
Qed.

(** The loop never goes back: what it tried is a prefix of its list, and a
    returned result is what the last tried generator's [generate] returned
    right after its own availability check. *)
Lemma try_generators_prefix (todo : list ref) :
  forall lastError trace w out w' trace',
    try_generators heap description onProgress todo lastError trace w
    = (out, w', trace') ->
    exists new,
      trace' = trace ++ new
      /\ map attempt_generator new `prefix_of` todo
      /\ forall result, out = inr result ->
           exists g w1 w2,
             last new = Some (Succeeded g)
             /\ In g todo
             /\ MusicGenerator.isAvailable (heap g) w1 = (inr true, w2)
             /\ MusicGenerator.generate (heap g) description onProgress w2
                = (inr result, w').
Proof.
  induction todo as [|g rest IH]; intros lastError trace w out w' trace' Hrun;
    simpl in Hrun.
  - injection Hrun as <- <- <-. exists []. rewrite app_nil_r.
    split; [done|]. split; [done|]. discriminate.
  - assert (Hstep : forall a lastError' w0,
               attempt_generator a = g -> succeeded a = false ->
               try_generators heap description onProgress rest lastError'
                 (trace ++ [a]) w0 = (out, w', trace') ->
               exists new,
                 trace' = trace ++ new
                 /\ map attempt_generator new `prefix_of` g :: rest
                 /\ forall result, out = inr result ->
                      exists g0 w1 w2,
                        last new = Some (Succeeded g0)
                        /\ In g0 (g :: rest)
                        /\ MusicGenerator.isAvailable (heap g0) w1 = (inr true, w2)
                        /\ MusicGenerator.generate (heap g0) description onProgress w2
                           = (inr result, w')).
    { intros a lastError' w0 Ha Hfail Hrest.
      apply IH in Hrest as (new & -> & Hprefix & Hres).
      exists (a :: new). rewrite <- app_assoc. split; [done|]. split.
      - simpl. rewrite Ha. by apply prefix_cons.
      - intros result Hout. destruct (Hres result Hout) as (g0 & w1 & w2 & Hlast & Hin & H1 & H2).
        exists g0, w1, w2. split; [|split; [by right | by split]].
        rewrite last_cons, Hlast. done. }
    destruct (MusicGenerator.isAvailable (heap g) w) as [[error|[|]] w1] eqn:Havail;
      [ | destruct (MusicGenerator.generate (heap g) description onProgress w1)
            as [[error|result] w2] eqn:Hgen | ].
    + by apply (Hstep (Failed g error) _ _ eq_refl eq_refl) in Hrun.
    + by apply (Hstep (Failed g error) _ _ eq_refl eq_refl) in Hrun.
    + injection Hrun as <- <- <-. exists [Succeeded g]. split; [done|]. split.
      * simpl. apply prefix_cons, prefix_nil.
      * intros r [= <-]. exists g, w, w1. repeat split; [by left | done | done].
    + by apply (Hstep (Skipped g) _ _ eq_refl eq_refl) in Hrun.
Qed.

(** A run of the manager is the run [loop_spec] describes. *)
Lemma generate_meets_spec (this : MusicGeneratorManager) (w w' : World)
    (out : outcome Result) (trace : list attempt) :
  generate heap description onProgress this w = (out, w', trace) ->
  loop_spec heap description onProgress (generatorsToTry this) w trace
            (match out with inr result => Some result | inl _ => None end) w'.
Proof.
  intros Hrun.
  destruct (loop_spec_total heap description onProgress (generatorsToTry this) w)
    as (new & result & w0 & Hspec).
  pose proof (try_generators_meets_spec heap description onProgress
                _ _ _ _ _ Hspec None []) as Heq.
  unfold generate in Hrun. rewrite Heq in Hrun.
  injection Hrun as <- <- <-. by destruct result.
Qed.

(** X14: one call of [generate] makes exactly the calls of the trial order
    and no others: each tried candidate gets one [isAvailable()] call, in the
    world its predecessor left, and one [generate] call right after a
    positive answer; nothing is retried or skipped ahead (the generators
    tried form a prefix of the trial list, and the final world is the one
    these calls produce); a returned result is the result of the last
    generator tried, produced by its [generate] right after its availability
    check said yes. *)
Theorem no_retry_and_provenance (this : MusicGeneratorManager) (w w' : World)
    (out : outcome Result) (trace : list attempt) :
  generate heap description onProgress this w = (out, w', trace) ->
  loop_spec heap description onProgress (generatorsToTry this) w trace
            (match out with inr result => Some result | inl _ => None end) w'
  /\ map attempt_generator trace `prefix_of` generatorsToTry this
  /\ forall result, out = inr result ->
       exists g w1 w2,
         last trace = Some (Succeeded g)
         /\ In g (generatorsToTry this)
         /\ MusicGenerator.isAvailable (heap g) w1 = (inr true, w2)
         /\ MusicGenerator.generate (heap g) description onProgress w2
            = (inr result, w').
Proof.
  intros Hrun. split; [by apply generate_meets_spec|].
  unfold generate in Hrun.
  apply try_generators_prefix in Hrun as (new & -> & Hprefix & Hres). done.
Qed.

(** X15: after a successful [setGenerator(name)] the generator tried first
    by [generate] is one whose name is [name]. *)
Theorem selected_name_is_tried_first (name : string) (this this' : MusicGeneratorManager) :
  setGenerator heap name this = (true, this') ->
  exists g, head (generatorsToTry this') = Some g
            /\ MusicGenerator.getName (heap g) = name.
Proof.
  unfold setGenerator. destruct (List.find _ _) as [g|] eqn:Hfind; [|discriminate].
  intros [= <-]. apply find_some in Hfind as [_ Hname].
  exists g. rewrite generatorsToTry_unfold. split; [done | by apply String.eqb_eq].
Qed.

(** X16: with no generator registered [generate] calls nothing and throws
    the generic "No available music generators" error. *)
Theorem nothing_registered (this : MusicGeneratorManager) (w : World) :
  generators this = [] ->
  currentGenerator this = None ->
  generate heap description onProgress this w = (inl no_generator_error, w, []).
Proof.
  intros Hgens Hcur. unfold generate. by rewrite generatorsToTry_unfold, Hcur, Hgens.
Qed.

End WithHeap.

Lemma selected_generator_first_witness :
  generate example_heap "calm piano" tt (registerGenerator 2%nat true constructor) []
  = (inr "/audio/c.wav", ["C.isAvailable"; "C.generate"], [Succeeded 2%nat]).
Proof.
  apply (selected_generator_first example_heap "calm piano" tt
           (registerGenerator 2%nat true constructor) 2%nat
           [] ["C.isAvailable"]); reflexivity.
Defined.

Lemma no_retry_and_provenance_witness :
  loop_spec example_heap "calm piano" tt (generatorsToTry example_manager) []
    [Skipped 0%nat; Failed 1%nat (mkError "B failed"); Succeeded 2%nat]
    (Some "/audio/c.wav")
    ["A.isAvailable"; "B.isAvailable"; "B.generate"; "C.isAvailable"; "C.generate"].
Proof.
  exact (proj1 (no_retry_and_provenance example_heap "calm piano" tt example_manager []
                  ["A.isAvailable"; "B.isAvailable"; "B.generate"; "C.isAvailable";
                   "C.generate"]
                  (inr "/audio/c.wav")
                  [Skipped 0%nat; Failed 1%nat (mkError "B failed"); Succeeded 2%nat]
                  eq_refl)).
Defined.

Lemma selected_name_is_tried_first_witness :
  exists g, head (generatorsToTry
                    (mkManager [0; 1; 2]%nat (Some 1%nat) (Some 0%nat))) = Some g
            /\ MusicGenerator.getName (example_heap g) = "B".
Proof.
  apply (selected_name_is_tried_first example_heap "B" example_manager). reflexivity.
Defined.

Lemma nothing_registered_witness :
  generate example_heap "calm piano" tt constructor []
  = (inl no_generator_error, [], []).
Proof. apply nothing_registered; reflexivity. Defined.

(** X17: registering a further generator without the default flag, while
    another one is current, keeps the trial order and appends the newcomer
    at its end; registering with the default flag puts the newcomer first. *)
Theorem register_extends_trial_list (g current : ref) (this : MusicGeneratorManager) :
  currentGenerator this = Some current ->
  g <> current ->
  generatorsToTry (registerGenerator g false this) = generatorsToTry this ++ [g]
  /\ head (generatorsToTry (registerGenerator g true this)) = Some g.
Proof.
  intros Hcur Hne. rewrite !generatorsToTry_unfold.
  destruct this as [gens cur fb]. simpl in Hcur. subst cur.
  unfold registerGenerator. cbn [generators currentGenerator fallbackGenerator].
  split.
  - simpl. destruct (negb (bool_decide (is_Some fb)));
      cbn [generators currentGenerator fallbackGenerator];
      rewrite filter_app, filter_cons_True, filter_nil by done; done.
  - simpl. by destruct (negb (bool_decide (is_Some fb))).
Qed.

Lemma register_extends_trial_list_witness :
  generatorsToTry (registerGenerator 2%nat false
                     (registerGenerator 1%nat false
                        (registerGenerator 0%nat true constructor)))
  = [0; 1; 2]%nat.
Proof.
  exact (proj1 (register_extends_trial_list 2%nat 0%nat
                  (registerGenerator 1%nat false
                     (registerGenerator 0%nat true constructor))
                  eq_refl ltac:(lia))).
Defined.

(** X18: [initialize()] on a new manager makes the Tone.js generator the
    current and the fallback generator, and [generate] will try the Tone.js
    generator first and the API generator second. *)
Theorem initialize_order (toneGenerator apiGenerator : ref) :
  toneGenerator <> apiGenerator ->
  generatorsToTry (initialize toneGenerator apiGenerator constructor)
  = [toneGenerator; apiGenerator]
  /\ getCurrentGenerator (initialize toneGenerator apiGenerator constructor)
     = Some toneGenerator
  /\ fallbackGenerator (initialize toneGenerator apiGenerator constructor)
     = Some toneGenerator.
Proof.
  intros Hne. rewrite generatorsToTry_unfold. cbn.
  rewrite decide_False by (intros H; by apply H).
  rewrite decide_True by congruence. done.
Qed.

Lemma initialize_order_witness :
  generatorsToTry (initialize 0%nat 1%nat constructor) = [0; 1]%nat.
Proof. exact (proj1 (initialize_order 0%nat 1%nat ltac:(lia))). Defined.

End ManagerMore.

(** ** The Tone.js generator object, alone and behind the manager *)
Module ToneGeneratorFacts.
Import ToneGenerator.

Section Externals.
Context {Ext Result : Type}.
Variable Tone_start : Ext -> outcome unit * Ext.
Variable _generateMusic :
  Tone.MusicParameters -> option (Z -> Ext -> Ext) -> Ext -> outcome Result * Ext.
Variable heap :
  Manager.ref -> MusicGenerator.t (world Ext) Result (option (Z -> Ext -> Ext)).

Lemma isAvailable_cases (w : world Ext) :
  exists available w',
    isAvailable Tone_start w = (inr available, w')
    /\ (Tone_defined w = false -> available = false /\ w' = w)
    /\ (available = true ->
        Tone_defined w' = true /\ isInitialized w' = true
        /\ isAvailable Tone_start w' = (inr true, w')).
Proof.
  unfold isAvailable. destruct w as [defined initialized e]. simpl.
  destruct defined; simpl.
  - destruct initialized; simpl.
    + exists true, (mkWorld true true e). by repeat split.
    + destruct (Tone_start e) as [[error|[]] e'].
      * exists false, (mkWorld true false e'). by repeat split.
      * exists true, (mkWorld true true e'). by repeat split.
  - exists false, (mkWorld false initialized e). by repeat split.
Qed.

(** X9: [isAvailable()] never throws, even when [Tone.start()] does.  When
    the global [Tone] is undefined it answers false and changes nothing.
    Once it has answered true the generator is initialised, and every later
    call answers true again without another [Tone.start()] (the environment
    is left as it is). *)
Theorem isAvailable_never_throws (w : world Ext) :
  exists available w',
    isAvailable Tone_start w = (inr available, w')
    /\ (Tone_defined w = false -> available = false /\ w' = w)
    /\ (available = true ->
        Tone_defined w' = true /\ isInitialized w' = true
        /\ isAvailable Tone_start w' = (inr true, w')).
Proof. apply isAvailable_cases. Qed.


(** X10: with only the Tone.js generator registered and the global [Tone]
    undefined, the manager skips the generator and fails with the generic
    "No available music generators" error; the generator's own error
    "Tone.js is not available" is not what the caller sees, and nothing in
    the environment changes. *)
Theorem tone_not_loaded (this : Manager.MusicGeneratorManager) (t : Manager.ref)
    (description : string) (onProgress : option (Z -> Ext -> Ext)) (w : world Ext) :
  Manager.generators this = [t] ->
  Manager.currentGenerator this = Some t ->
  heap t = object Tone_start _generateMusic ->
  Tone_defined w = false ->
  Manager.generate heap description onProgress this w
  = (inl Manager.no_generator_error, w, [Manager.Skipped t]).
Proof.
  intros Hgens Hcur Hobj Hundefined. unfold Manager.generate.
  rewrite ManagerFacts.generatorsToTry_unfold, Hcur, Hgens.
  rewrite filter_cons_False by (intros H; by apply H). rewrite filter_nil.
  simpl. rewrite Hobj. cbn [MusicGenerator.isAvailable object].
  unfold isAvailable. by rewrite Hundefined.
Qed.


End Externals.

Lemma isAvailable_never_throws_witness :
  isAvailable example_start (mkWorld true true ["Tone.start"])
  = (inr true, mkWorld true true ["Tone.start"]).
Proof.
  destruct (isAvailable_never_throws example_start (mkWorld true false []))
    as (available & w' & Heq & _ & Hstable).
  injection Heq as <- <-. exact (proj2 (proj2 (Hstable eq_refl))).
Defined.

Lemma tone_not_loaded_witness :
  Manager.generate (fun _ => object example_start example_generateMusic)
    "a slow song" (Some example_report)
    (Manager.registerGenerator 0%nat true Manager.constructor)
    (mkWorld false false [])
  = (inl Manager.no_generator_error, mkWorld false false [], [Manager.Skipped 0%nat]).
Proof. apply (tone_not_loaded example_start example_generateMusic); reflexivity. Defined.


End ToneGeneratorFacts.

(** ** The WAV encoder on arbitrary buffers *)
Module WavMore.
Import Wav WavFacts.
Local Open Scope wav_scope.

Lemma Forall_le_bytes (width : nat) (value : Z) :
  Forall (fun b => 0 <= b < 256) (le_bytes width value).
Proof.
  unfold le_bytes. apply Forall_forall. intros b Hb.
  apply list_elem_of_In, in_map_iff in Hb as (k & <- & _). apply byte_of_range.
Qed.

Lemma Forall_flat_map {A} (P : Z -> Prop) (f : A -> list Z) (l : list A) :
  (forall x, Forall P (f x)) -> Forall P (flat_map f l).
Proof.
  intros Hf. induction l as [|x l IH]; simpl; [constructor|].
  apply Forall_app. by split.
Qed.

Lemma Forall_wav_bytes (buffer : AudioBuffer) :
  Forall (fun b => 0 <= b < 256) (wav_bytes buffer).
Proof.
  assert (Htag : forall tag, Forall (fun b => 0 <= b < 256) (char_codes tag)).
  { intros tag. unfold char_codes. apply Forall_forall. intros b Hb.
    apply list_elem_of_In, in_map_iff in Hb as (c & <- & _).
    pose proof (nat_ascii_bounded c). lia. }
  unfold wav_bytes, header_bytes.
  repeat (apply Forall_app; split);
    try apply Forall_le_bytes; try apply Htag.
  apply Forall_flat_map. intros i. unfold frame_bytes.
  apply Forall_flat_map. intros c. apply Forall_le_bytes.
Qed.

(** X19: as soon as the buffer has as many channel arrays as it announces,
    whatever their lengths, the encoder throws nothing and returns
    44 + length * numberOfChannels * 2 values that are all bytes
    (0..255). *)
Theorem encoder_returns_bytes (buffer : AudioBuffer) :
  List.length (channelData buffer) = numberOfChannels buffer ->
  exists bytes,
    audioBufferToWav buffer = Some bytes
    /\ List.length bytes = (44 + length buffer * numberOfChannels buffer * 2)%nat
    /\ Forall (fun b => 0 <= b < 256) bytes.
Proof.
  intros Hchannels. exists (wav_bytes buffer).
  split; [by apply audioBufferToWav_bytes|].
  split; [apply length_wav_bytes | apply Forall_wav_bytes].
Qed.

Lemma encoder_returns_bytes_witness :
  exists bytes,
    audioBufferToWav sample_buffer = Some bytes
    /\ List.length bytes = 56%nat
    /\ Forall (fun b => 0 <= b < 256) bytes.
Proof. apply (encoder_returns_bytes sample_buffer). reflexivity. Defined.

(** Where the sample of frame [i] and channel [channel] is stored. *)
Lemma sample_position (buffer : AudioBuffer) (i channel : nat) :
  (i < length buffer)%nat ->
  (channel < numberOfChannels buffer)%nat ->
  slice (44 + (i * numberOfChannels buffer + channel) * 2) 2 (wav_bytes buffer)
  = sample_bytes (channelData buffer) i channel.
Proof.
  intros Hi Hc. unfold wav_bytes.
  rewrite <- (length_header_bytes buffer), slice_app_r.
  replace ((i * numberOfChannels buffer + channel) * 2)%nat
    with (i * (numberOfChannels buffer * 2) + channel * 2)%nat by lia.
  rewrite (slice_flat_map _ (numberOfChannels buffer * 2) _
             (length_frame_bytes _ _) i i (channel * 2)%nat 2%nat)
    by (by apply lookup_seq_lt || lia).
  unfold frame_bytes.
  replace (channel * 2)%nat with (channel * 2 + 0)%nat by lia.
  rewrite (slice_flat_map _ 2 _ (length_sample_bytes _ _) channel channel 0%nat 2%nat)
    by (by apply lookup_seq_lt || lia).
  reflexivity.
Qed.

(** X20: a channel array shorter than the announced length does not shift
    or shorten the output: the frames it lacks are stored as the sample 0
    (the read past its end is [undefined], which becomes NaN and then 0). *)
Theorem short_channel_is_padded (buffer : AudioBuffer) (i channel : nat)
    (data : list number) :
  List.length (channelData buffer) = numberOfChannels buffer ->
  channelData buffer !! channel = Some data ->
  (List.length data <= i < length buffer)%nat ->
  exists bytes,
    audioBufferToWav buffer = Some bytes
    /\ List.length bytes = (44 + length buffer * numberOfChannels buffer * 2)%nat
    /\ slice (44 + (i * numberOfChannels buffer + channel) * 2) 2 bytes = [0; 0].
Proof.
  intros Hchannels Hdata [Hshort Hi]. exists (wav_bytes buffer).
  split; [by apply audioBufferToWav_bytes|]. split; [apply length_wav_bytes|].
  rewrite sample_position; [|done|].
  - unfold sample_bytes, read_sample. rewrite Hdata.
    by rewrite (lookup_ge_None_2 data i Hshort).
  - rewrite <- Hchannels. by eapply lookup_lt_Some.
Qed.

Lemma short_channel_is_padded_witness :
  exists bytes,
    audioBufferToWav (mkAudioBuffer 2 1 8000 [[Finite 1]]) = Some bytes
    /\ List.length bytes = 48%nat
    /\ slice 46 2 bytes = [0; 0].
Proof.
  apply (short_channel_is_padded (mkAudioBuffer 2 1 8000 [[Finite 1]]) 1 0 [Finite 1]);
    [reflexivity | reflexivity | simpl; lia].
Defined.

Lemma collect_channels_missing (buffer : AudioBuffer) (st : state) (m : nat) :
  (List.length (channelData buffer) < numberOfChannels buffer)%nat ->
  forall k acc,
    (k <= List.length (channelData buffer) < k + m)%nat ->
    collect_channels buffer (seq k m) acc st = None.
Proof.
  intros Hmissing. induction m as [|m IH]; intros k acc Hk; [lia|].
  cbn [seq collect_channels]. unfold getChannelData.
  destruct (channelData buffer !! k) as [data|] eqn:Hdata; [|done].
  apply lookup_lt_Some in Hdata.
  rewrite decide_True by lia. unfold bind at 1, ret. apply IH. lia.
Qed.

(** X21: a buffer that announces more channels than it has arrays makes the
    encoder fail: [getChannelData] throws and no bytes are returned. *)
Theorem missing_channel_throws (buffer : AudioBuffer) :
  (List.length (channelData buffer) < numberOfChannels buffer)%nat ->
  audioBufferToWav buffer = None.
Proof.
  intros Hmissing. unfold audioBufferToWav, wav_body.
  set (n := (44 + length buffer * numberOfChannels buffer * 2)%nat).
  change (mkState (replicate n 0) 0) with (written n []).
  unfold setUint32, setUint16.
  rewrite (write_string n) by (rewrite ?length_app, ?length_le_bytes; unfold n; simpl; lia).
  rewrite (write_field n) by (rewrite ?length_app, ?length_le_bytes; unfold n; simpl; lia).
  rewrite (write_string n) by (rewrite ?length_app, ?length_le_bytes; unfold n; simpl; lia).
  rewrite (write_string n) by (rewrite ?length_app, ?length_le_bytes; unfold n; simpl; lia).
  do 7 rewrite (write_field n) by (rewrite ?length_app, ?length_le_bytes; unfold n; simpl; lia).
  rewrite (write_string n) by (rewrite ?length_app, ?length_le_bytes; unfold n; simpl; lia).
  rewrite (write_field n) by (rewrite ?length_app, ?length_le_bytes; unfold n; simpl; lia).
  unfold bind at 1.
  by rewrite (collect_channels_missing buffer _ _ Hmissing 0%nat []) by lia.
Qed.

Lemma missing_channel_throws_witness :
  audioBufferToWav (mkAudioBuffer 1 2 8000 [[Finite 1]]) = None.
Proof. apply missing_channel_throws. simpl. lia. Defined.

(** X22: when the header values fit their fields, a reader gets them back
    exactly: the channel count, the sample rate, the byte rate, the block
    alignment; the RIFF chunk size is the file length minus 8 and the data
    size is the file length minus the 44 header bytes. *)
Theorem header_exact_when_it_fits (buffer : AudioBuffer) :
  List.length (channelData buffer) = numberOfChannels buffer ->
  fits buffer ->
  exists bytes,
    audioBufferToWav buffer = Some bytes
    /\ le_value (slice 4 4 bytes) = Z.of_nat (List.length bytes) - 8
    /\ le_value (slice 22 2 bytes) = Z.of_nat (numberOfChannels buffer)
    /\ le_value (slice 24 4 bytes) = sampleRate buffer
    /\ le_value (slice 28 4 bytes)
       = sampleRate buffer * Z.of_nat (numberOfChannels buffer) * 2
    /\ le_value (slice 32 2 bytes) = Z.of_nat (numberOfChannels buffer) * 2
    /\ le_value (slice 40 4 bytes) = Z.of_nat (List.length bytes) - 44.
Proof.
  intros Hchannels (Halign & Hrate & Hbyterate & Hsize).
  exists (wav_bytes buffer). split; [by apply audioBufferToWav_bytes|].
  rewrite length_wav_bytes.
  assert (Hdata : Z.of_nat (44 + length buffer * numberOfChannels buffer * 2)
                  = 44 + data_bytes buffer).
  { unfold data_bytes. lia. }
  rewrite Hdata.
  assert (Hpos : 0 <= data_bytes buffer) by (unfold data_bytes; lia).
  change (2 ^ 16) with 65536 in *. change (2 ^ 32) with 4294967296 in *.
  repeat match goal with
         | |- le_value (slice ?k ?w _) = _ /\ _ => split
         end;
    match goal with
    | |- le_value (slice 4 4 _) = _ =>
        change (slice 4 4 (wav_bytes buffer)) with (le_bytes 4 (36 + data_bytes buffer))
    | |- le_value (slice 22 2 _) = _ =>
        change (slice 22 2 (wav_bytes buffer))
          with (le_bytes 2 (Z.of_nat (numberOfChannels buffer)))
    | |- le_value (slice 24 4 _) = _ =>
        change (slice 24 4 (wav_bytes buffer)) with (le_bytes 4 (sampleRate buffer))
    | |- le_value (slice 28 4 _) = _ =>
        change (slice 28 4 (wav_bytes buffer))
          with (le_bytes 4 (sampleRate buffer * Z.of_nat (numberOfChannels buffer) * 2))
    | |- le_value (slice 32 2 _) = _ =>
        change (slice 32 2 (wav_bytes buffer))
          with (le_bytes 2 (Z.of_nat (numberOfChannels buffer) * 2))
    | |- le_value (slice 40 4 _) = _ =>
        change (slice 40 4 (wav_bytes buffer)) with (le_bytes 4 (data_bytes buffer))
    end;
    rewrite le_value_le_bytes;
    [ change (2 ^ (8 * Z.of_nat 4)) with 4294967296
    | change (2 ^ (8 * Z.of_nat 2)) with 65536
    | change (2 ^ (8 * Z.of_nat 4)) with 4294967296
    | change (2 ^ (8 * Z.of_nat 4)) with 4294967296
    | change (2 ^ (8 * Z.of_nat 2)) with 65536
    | change (2 ^ (8 * Z.of_nat 4)) with 4294967296 ];
    rewrite Z.mod_small; lia.
Qed.

Lemma header_exact_when_it_fits_witness :
  exists bytes,
    audioBufferToWav sample_buffer = Some bytes
    /\ le_value (slice 4 4 bytes) = Z.of_nat (List.length bytes) - 8
    /\ le_value (slice 24 4 bytes) = 44100.
Proof.
  destruct (header_exact_when_it_fits sample_buffer eq_refl)
    as (bytes & Hrun & Hchunk & _ & Hrate & _).
  { vm_compute. repeat split; discriminate || reflexivity. }
  exists bytes. by repeat split.
Defined.

(** *** Quantisation *)

Lemma clamp_mono (a b : Q) : (a <= b)%Q -> (clamp a <= clamp b)%Q.
Proof.
  intros Hab. unfold clamp.
  compare 1%Q a; compare 1%Q b; try lra;
    compare a (-1)%Q; compare b (-1)%Q; lra.
Qed.

Lemma Qfloor_nonneg (x : Q) : (0 <= x)%Q -> 0 <= Qfloor x.
Proof.
  intros Hx. change 0 with (Qfloor (inject_Z 0)). apply Qfloor_resp_le.
  by change (inject_Z 0) with 0%Q.
Qed.

Lemma quantize_mono (a b : Q) : (a <= b)%Q -> quantize a <= quantize b.
Proof.
  intros Hab. unfold quantize, truncate.
  compare a 0%Q; compare b 0%Q; try (exfalso; lra).
  - compare (a * 32768)%Q 0%Q; [|exfalso; lra].
    compare (b * 32768)%Q 0%Q; [|exfalso; lra].
    assert (H : Qfloor (- (b * 32768)) <= Qfloor (- (a * 32768)))
      by (apply Qfloor_resp_le; lra).
    lia.
  - compare (a * 32768)%Q 0%Q; [|exfalso; lra].
    compare (b * 32767)%Q 0%Q; [exfalso; lra|].
    pose proof (Qfloor_nonneg (- (a * 32768)) ltac:(lra)).
    pose proof (Qfloor_nonneg (b * 32767) ltac:(lra)). lia.
  - compare (a * 32767)%Q 0%Q; [exfalso; lra|].
    compare (b * 32767)%Q 0%Q; [exfalso; lra|].
    apply Qfloor_resp_le. lra.
Qed.

(** X23: the conversion of a finite sample is monotone: a larger sample is
    never stored as a smaller 16-bit value (no wrap-around at the ends of
    the range). *)
Theorem conversion_monotone (q1 q2 : Q) :
  (q1 <= q2)%Q ->
  ToInt16 (scaled (Finite q1)) <= ToInt16 (scaled (Finite q2)).
Proof.
  intros Hle.
  rewrite (proj1 (ToInt16_scaled (Finite q1))), (proj1 (ToInt16_scaled (Finite q2))).
  apply quantize_mono, clamp_mono, Hle.
Qed.

Lemma conversion_monotone_witness :
  ToInt16 (scaled (Finite (-3 # 2))) <= ToInt16 (scaled (Finite (5 # 4))).
Proof. apply conversion_monotone. unfold Qle. simpl. lia. Defined.

(** X24: the stored value is the scaled clamped sample with its fraction
    dropped toward zero: it has the sign of the sample and is less than one
    unit away from the exact product (with factor 32767 from zero upward and
    32768 below zero). *)
Theorem conversion_truncates (q : Q) :
  (0 <= clamp q ->
   inject_Z (ToInt16 (scaled (Finite q))) <= clamp q * 32767
   /\ clamp q * 32767 < inject_Z (ToInt16 (scaled (Finite q))) + 1)%Q
  /\ (clamp q < 0 ->
      clamp q * 32768 <= inject_Z (ToInt16 (scaled (Finite q)))
      /\ inject_Z (ToInt16 (scaled (Finite q))) - 1 < clamp q * 32768)%Q.
Proof.
  rewrite (proj1 (ToInt16_scaled (Finite q))).
  change (pcm16 (Finite q)) with (quantize (clamp q)).
  generalize (clamp q). intros c. unfold quantize, truncate. split; intros Hc.
  - compare c 0%Q; [exfalso; lra|].
    compare (c * 32767)%Q 0%Q; [exfalso; lra|].
    split; [apply Qfloor_le|].
    pose proof (Qlt_floor (c * 32767)) as Hlt.
    rewrite inject_Z_plus in Hlt. exact Hlt.
  - compare c 0%Q; [|exfalso; lra].
    compare (c * 32768)%Q 0%Q; [|exfalso; lra].
    rewrite inject_Z_opp.
    pose proof (Qfloor_le (- (c * 32768))) as Hle.
    pose proof (Qlt_floor (- (c * 32768))) as Hlt.
    rewrite inject_Z_plus in Hlt. change (inject_Z 1) with 1%Q in Hlt.
    split; lra.
Qed.

Lemma conversion_truncates_witness :
  (inject_Z (ToInt16 (scaled (Finite (1 # 2)))) <= clamp (1 # 2) * 32767)%Q.
Proof.
  apply (proj1 (conversion_truncates (1 # 2))). vm_compute. discriminate.
Defined.

End WavMore.
